(** * HomeDeck gateway (web/server.ts): host validation, proxy routes,
      the upstream WebSocket relay and the mDNS registry.

    A shallow embedding of the TypeScript server.  JavaScript strings are
    [string]s, [Map]s are [gmap]s, plain objects used as dictionaries are
    [gmap]s of their own properties beside the names they inherit, a
    [Set<WebSocket>] is a duplicate-free list in insertion order, and
    WebSocket objects are identified by a number. *)

From Stdlib Require Import Ascii String NArith Lia Bool.
From stdpp Require Import base gmap strings list fin_maps pretty.

(** ** Strings *)

Module Str.

(** [\d] of a JavaScript regular expression: the ten ASCII digits. *)
Definition is_digit (c : ascii) : bool :=
  match c with
  | "0" | "1" | "2" | "3" | "4" | "5" | "6" | "7" | "8" | "9" => true
  | _ => false
  end%char.

Fixpoint all_digits (s : string) : bool :=
  match s with
  | "" => true
  | String c s' => is_digit c && all_digits s'
  end.

Definition digit_value (c : ascii) : N := (N_of_ascii c - 48)%N.

Fixpoint decimal_from (acc : N) (s : string) : N :=
  match s with
  | "" => acc
  | String c s' => decimal_from (10 * acc + digit_value c)%N s'
  end.

(** The number a string of decimal digits denotes. *)
Definition decimal_value (s : string) : N := decimal_from 0 s.

(** [s.split(sep)] for a one-character separator: the pieces between
    the occurrences of [sep]; a string without [sep] gives one piece. *)
Fixpoint split (sep : ascii) (s : string) : list string :=
  match s with
  | "" => [""]
  | String c s' =>
      if Ascii.eqb c sep then "" :: split sep s'
      else match split sep s' with
           | piece :: rest => String c piece :: rest
           | [] => [String c ""]
           end
  end.

(** [sep] does not occur in [s]. *)
Fixpoint free_of (sep : ascii) (s : string) : bool :=
  match s with
  | "" => true
  | String c s' => negb (Ascii.eqb c sep) && free_of sep s'
  end.

(** [arr.includes(x)] on an array of strings. *)
Definition includes (arr : list string) (x : string) : bool :=
  existsb (String.eqb x) arr.

End Str.

(** ** Regular expressions

    The fragment of JavaScript regular expressions that [isValidHost]
    uses, matched against the whole input (the pattern is anchored with
    [^] and [$], and without the [m] flag [$] matches at the end of the
    input only).  [test] decides a match by taking derivatives. *)

Module Regex.

Inductive regex : Type :=
| Never
| Eps
| Class (p : ascii → bool)
| Cat (r1 r2 : regex)
| Alt (r1 r2 : regex).

Fixpoint nullable (r : regex) : bool :=
  match r with
  | Never => false
  | Eps => true
  | Class _ => false
  | Cat r1 r2 => nullable r1 && nullable r2
  | Alt r1 r2 => nullable r1 || nullable r2
  end.

Fixpoint deriv (c : ascii) (r : regex) : regex :=
  match r with
  | Never | Eps => Never
  | Class p => if p c then Eps else Never
  | Cat r1 r2 =>
      if nullable r1 then Alt (Cat (deriv c r1) r2) (deriv c r2)
      else Cat (deriv c r1) r2
  | Alt r1 r2 => Alt (deriv c r1) (deriv c r2)
  end.

Fixpoint test (r : regex) (s : string) : bool :=
  match s with
  | "" => nullable r
  | String c s' => test (deriv c r) s'
  end.

(** [r{n}] *)
Fixpoint rep (n : nat) (r : regex) : regex :=
  match n with
  | 0 => Eps
  | S n' => Cat r (rep n' r)
  end.

(** [r{0,n}] *)
Fixpoint upto (n : nat) (r : regex) : regex :=
  match n with
  | 0 => Eps
  | S n' => Alt Eps (Cat r (upto n' r))
  end.

(** [r{lo,hi}] *)
Definition range (lo hi : nat) (r : regex) : regex :=
  Cat (rep lo r) (upto (hi - lo) r).

Definition digit : regex := Class Str.is_digit.
Definition chr (c : ascii) : regex := Class (Ascii.eqb c).

(** The strings a regular expression denotes. *)
Inductive lang : regex → string → Prop :=
| lang_eps : lang Eps ""
| lang_class p c : p c = true → lang (Class p) (String c "")
| lang_cat r1 r2 s1 s2 :
    lang r1 s1 → lang r2 s2 → lang (Cat r1 r2) (s1 +:+ s2)
| lang_alt_l r1 r2 s : lang r1 s → lang (Alt r1 r2) s
| lang_alt_r r1 r2 s : lang r2 s → lang (Alt r1 r2) s.

End Regex.

(** ** Host validator: [isValidHost] *)

Module Host.
Import Regex.

(** [/^(?:\d{1,3}\.){3}\d{1,3}:\d{1,5}$/] *)
Definition host_regex : regex :=
  Cat (rep 3 (Cat (range 1 3 digit) (chr ".")))
      (Cat (range 1 3 digit) (Cat (chr ":") (range 1 5 digit))).

(** [Number(s)] on the strings that reach it here.  A string of decimal
    digits gives its value (the empty string gives 0); anything else is
    [NaN], which is [None].  Signs, blanks, exponents and radix prefixes,
    which JavaScript also converts, never get past the regular
    expression, so they are left out. *)
Definition Number (s : string) : option N :=
  if Str.all_digits s then Some (Str.decimal_value s) else None.

(** [n >= lo && n <= hi]; every comparison with [NaN] is false. *)
Definition between (lo hi : N) (n : option N) : bool :=
  match n with
  | Some v => (lo <=? v)%N && (v <=? hi)%N
  | None => false
  end.

Definition isValidHost (str : string) : bool :=
  if negb (test host_regex str) then false
  else
    match Str.split ":" str with
    | ip :: port :: _ =>
        let octets := map Number (Str.split "." ip) in
        let validIp := forallb (between 0 255) octets in
        let validPort := between 1 65535 (Number port) in
        validIp && validPort
    | _ => false
    end.

(** The shape [a.b.c.d:p] with a condition on the four groups and one on
    the port. *)
Definition dotted_host (octet port : string → Prop) (s : string) : Prop :=
  ∃ a b c d p : string,
    s = a +:+ "." +:+ b +:+ "." +:+ c +:+ "." +:+ d +:+ ":" +:+ p
    ∧ octet a ∧ octet b ∧ octet c ∧ octet d ∧ port p.

(** A decimal integer in [[lo,hi]]: one or more decimal digits whose
    value lies in the range. *)
Definition decimal_in (lo hi : N) (s : string) : Prop :=
  Str.all_digits s = true ∧ s ≠ ""
  ∧ (lo ≤ Str.decimal_value s)%N ∧ (Str.decimal_value s ≤ hi)%N.

(** The host syntax in the words of the specification: four
    dot-separated decimal integers in [[0,255]], a colon, and a decimal
    integer in [[1,65535]]. *)
Definition spec_valid_host : string → Prop :=
  dotted_host (decimal_in 0 255) (decimal_in 1 65535).

(** Between [lo] and [hi] decimal digits. *)
Definition digits_of (lo hi : nat) (x : string) : Prop :=
  Str.all_digits x = true ∧ lo ≤ String.length x ≤ hi.

(** The same with the digit counts of the regular expression. *)
Definition decimal_upto (len : nat) (lo hi : N) (s : string) : Prop :=
  decimal_in lo hi s ∧ String.length s ≤ len.

Definition bounded_valid_host : string → Prop :=
  dotted_host (decimal_upto 3 0 255) (decimal_upto 5 1 65535).

End Host.

(** ** Proxy routes: [GET] and [POST /proxy/:host/v:api_version/:endpoint]

    A handler runs against the network ([upstream]: what [fetch] gets for
    a request, or nothing when the request fails) and records the
    requests it makes.  A JavaScript exception is the outcome [Throw]. *)

Module Proxy.
Import Host.

Inductive Method := GET | POST.

Record Request := {
  req_method : Method;
  req_url : string;
  req_body : option string
}.

Inductive Outcome (A : Type) : Type :=
| Ok (a : A)
| Throw.
Global Arguments Ok {A} a.
Global Arguments Throw {A}.

(** State: the requests sent so far. *)
Definition Net (A : Type) : Type := list Request → list Request * Outcome A.

Global Instance Net_ret : MRet Net := λ A a log, (log, Ok a).

Global Instance Net_bind : MBind Net := λ A B k m log,
  match m log with
  | (log', Ok a) => k a log'
  | (log', Throw) => (log', Throw)
  end.

(** [try { body } catch (e) { handler }] *)
Definition try_catch {A} (body handler : Net A) : Net A := λ log,
  match body log with
  | (log', Ok a) => (log', Ok a)
  | (log', Throw) => handler log'
  end.

(** What the handler passes to [res.send] / [res.json]. *)
Inductive Reply (J : Type) : Type :=
| ErrorObject (error : string)
| TextBody (body : string)
| JsonBody (body : J).
Global Arguments ErrorObject {J} error.
Global Arguments TextBody {J} body.
Global Arguments JsonBody {J} body.

Section Handlers.
Context {J : Type}.
(** The device side: the body a request is answered with, if any. *)
Context (upstream : Request → option string).
(** [JSON.parse] (inside [response.json()]) and [JSON.stringify]. *)
Context (parse : string → option J) (stringify : J → string).

(** [await fetch(url, init)] followed by reading the body as text. *)
Definition fetch_text (req : Request) : Net string := λ log,
  (log ++ [req],
   match upstream req with Some body => Ok body | None => Throw end).

(** [await (await fetch(url, init)).json()] *)
Definition fetch_json (req : Request) : Net J :=
  body ← fetch_text req;
  λ log, (log, match parse body with Some j => Ok j | None => Throw end).

Definition proxy_url (host apiVersion endpoint : string) : string :=
  "http://" +:+ host +:+ "/v" +:+ apiVersion +:+ "/" +:+ endpoint.

Definition proxy_get (host apiVersion endpoint : string) : Net (Reply J) :=
  if negb (isValidHost host) then
    mret (ErrorObject ("Invalid host: " +:+ host))
  else if negb (Str.includes ["configuration"; "schema"] endpoint) then
    mret (ErrorObject ("Invalid endpoint: " +:+ endpoint))
  else
    let url := proxy_url host apiVersion endpoint in
    let req := {| req_method := GET; req_url := url; req_body := None |} in
    try_catch
      (if String.eqb endpoint "schema" then
         body ← fetch_text req; mret (TextBody body)
       else
         body ← fetch_json req; mret (JsonBody body))
      (mret (ErrorObject ("Unreachable: " +:+ url))).

Definition proxy_post (host apiVersion endpoint : string) (postData : J)
  : Net (Reply J) :=
  if negb (isValidHost host) then
    mret (ErrorObject ("Invalid host: " +:+ host))
  else if negb (Str.includes ["configuration"; "start"; "stop"] endpoint) then
    mret (ErrorObject ("Invalid endpoint: " +:+ endpoint))
  else
    let url := proxy_url host apiVersion endpoint in
    let req := {| req_method := POST; req_url := url;
                  req_body := Some (stringify postData) |} in
    try_catch
      (responseData ← fetch_json req; mret (JsonBody responseData))
      (mret (ErrorObject ("Unreachable: " +:+ url))).

(** The upstream request fails: no answer, or (where the handler decodes
    JSON) an answer that does not decode. *)
Definition upstream_fails (decoded : bool) (req : Request) : Prop :=
  match upstream req with
  | None => True
  | Some body => decoded = true ∧ parse body = None
  end.

(** Both routes as one function of the method, with the list of
    endpoints each accepts, the request each sends, and whether it
    decodes the answer as JSON. *)
Definition whitelist (m : Method) : list string :=
  match m with
  | GET => ["configuration"; "schema"]
  | POST => ["configuration"; "start"; "stop"]
  end.

Definition handle (m : Method) (host apiVersion endpoint : string)
  (postData : J) : Net (Reply J) :=
  match m with
  | GET => proxy_get host apiVersion endpoint
  | POST => proxy_post host apiVersion endpoint postData
  end.

Definition request_of (m : Method) (host apiVersion endpoint : string)
  (postData : J) : Request :=
  {| req_method := m;
     req_url := proxy_url host apiVersion endpoint;
     req_body := match m with
                 | GET => None
                 | POST => Some (stringify postData)
                 end |}.

Definition decodes (m : Method) (endpoint : string) : bool :=
  match m with
  | GET => negb (String.eqb endpoint "schema")
  | POST => true
  end.

End Handlers.

End Proxy.

(** ** Relay manager: [RemoteWebSocketManager]

    The manager's two maps, the upstream WebSocket objects it has
    constructed (a heap indexed by creation order, so the length of the
    heap is the number of upstream connections ever created), the ready
    state of the browser-side sockets, and the frames sent to them. *)

Module Relay.

Inductive ReadyState := CONNECTING | OPEN | CLOSING | CLOSED.

Global Instance ReadyState_eq_dec : EqDecision ReadyState.
Proof. solve_decision. Defined.

(** An upstream [WebSocket] built by [open]: its URL, the [host] its
    event handlers close over, its ready state, and how many times
    [close()] has been called on it. *)
Record Upstream := {
  up_url : string;
  up_host : string;
  up_state : ReadyState;
  up_closeCalls : nat
}.

(** A frame handed to [client.send(msg, { binary })]. *)
Record Frame := {
  f_client : nat;
  f_msg : string;
  f_binary : bool
}.

Record World := {
  remoteConnections : gmap string nat;
  clientGroups : gmap string (list nat);
  remotes : list Upstream;
  clientState : nat → ReadyState;
  outbox : list Frame
}.

Definition init : World := {|
  remoteConnections := ∅;
  clientGroups := ∅;
  remotes := [];
  clientState := λ _, OPEN;
  outbox := []
|}.

Definition set_remoteConnections (f : gmap string nat → gmap string nat)
  (w : World) : World :=
  {| remoteConnections := f (remoteConnections w);
     clientGroups := clientGroups w; remotes := remotes w;
     clientState := clientState w; outbox := outbox w |}.

Definition set_clientGroups
  (f : gmap string (list nat) → gmap string (list nat)) (w : World) : World :=
  {| remoteConnections := remoteConnections w;
     clientGroups := f (clientGroups w); remotes := remotes w;
     clientState := clientState w; outbox := outbox w |}.

Definition set_remotes (f : list Upstream → list Upstream) (w : World)
  : World :=
  {| remoteConnections := remoteConnections w;
     clientGroups := clientGroups w; remotes := f (remotes w);
     clientState := clientState w; outbox := outbox w |}.

Definition set_clientState (f : (nat → ReadyState) → nat → ReadyState)
  (w : World) : World :=
  {| remoteConnections := remoteConnections w;
     clientGroups := clientGroups w; remotes := remotes w;
     clientState := f (clientState w); outbox := outbox w |}.

Definition set_outbox (f : list Frame → list Frame) (w : World) : World :=
  {| remoteConnections := remoteConnections w;
     clientGroups := clientGroups w; remotes := remotes w;
     clientState := clientState w; outbox := f (outbox w) |}.

(** [Set.prototype.add] and [Set.prototype.delete]. *)
Definition set_add (c : nat) (g : list nat) : list nat :=
  if decide (c ∈ g) then g else g ++ [c].

Definition set_delete (c : nat) (g : list nat) : list nat :=
  filter (λ x, x ≠ c) g.

(** [remoteWs.readyState]; an identifier outside the heap, which no
    reachable world holds, reads as [CLOSED]. *)
Definition readyState (w : World) (r : nat) : ReadyState :=
  from_option up_state CLOSED (remotes w !! r).

(** [WebSocket.prototype.close()] of the ws package, as far as the
    manager can observe it: a socket that is not yet [CLOSED] moves to
    [CLOSING]; the [close] event comes later, from the event loop.
    ([Runtime.remote_close] adds the runtime that delivers the event
    inside the call.) *)
Definition ws_close (u : Upstream) : Upstream :=
  {| up_url := up_url u; up_host := up_host u;
     up_state := match up_state u with CLOSED => CLOSED | _ => CLOSING end;
     up_closeCalls := S (up_closeCalls u) |}.

Definition ws_set_state (st : ReadyState) (u : Upstream) : Upstream :=
  {| up_url := up_url u; up_host := up_host u;
     up_state := st; up_closeCalls := up_closeCalls u |}.

(** [group?.add(client)]: the Set object sits in the map, so adding to it
    updates the map's entry; without an entry nothing happens. *)
Definition registerClient (client : nat) (host : string) (w : World) : World :=
  match clientGroups w !! host with
  | Some group => set_clientGroups (<[host := set_add client group]>) w
  | None => w
  end.

(** The object [new WebSocket(url)] returns: fresh and [CONNECTING].
    (The constructor throws on a string that is no WebSocket URL;
    [Runtime.open] adds that failure.) *)
Definition new_upstream (host apiVersion : string) : Upstream :=
  {| up_url := "ws://" +:+ host +:+ "/v" +:+ apiVersion +:+ "/ws";
     up_host := host; up_state := CONNECTING; up_closeCalls := 0 |}.

(** The part of [open] after the guard, for a URL the constructor
    accepts: construct the socket, install its handlers, and record the
    socket and a fresh group holding the client under [host]. *)
Definition connect (client : nat) (host apiVersion : string) (w : World)
  : World * nat :=
  let remoteWs := length (remotes w) in
  let w := set_remotes (λ h, h ++ [new_upstream host apiVersion]) w in
  let w := set_remoteConnections (<[host := remoteWs]>) w in
  let w := set_clientGroups (<[host := [client]]>) w in
  (w, remoteWs).

Definition open (client : nat) (host apiVersion : string) (w : World)
  : World * nat :=
  match remoteConnections w !! host with
  | Some remoteWs =>
      if decide (readyState w remoteWs ≠ OPEN)
      then (registerClient client host w, remoteWs)
      else connect client host apiVersion w
  | None => connect client host apiVersion w
  end.

(** The handlers [open] installs on the socket it creates; each closes
    over [host]. *)
Definition on_close (host : string) (w : World) : World :=
  set_remoteConnections (delete host) w.

Definition send (client : nat) (msg : string) (isBinary : bool) (w : World)
  : World :=
  set_outbox
    (λ o, o ++ [{| f_client := client; f_msg := msg; f_binary := isBinary |}])
    w.

Definition on_message (host : string) (msg : string) (isBinary : bool)
  (w : World) : World :=
  let clients := default [] (clientGroups w !! host) in
  foldl (λ w client,
           if decide (clientState w client = OPEN)
           then send client msg isBinary w else w)
        w clients.

Definition close (client : nat) (host : string) (w : World) : World :=
  let w :=
    match clientGroups w !! host with
    | Some group => set_clientGroups (<[host := set_delete client group]>) w
    | None => w
    end in
  let no_clients :=
    match clientGroups w !! host with
    | Some group => bool_decide (length group = 0)
    | None => true
    end in
  if no_clients then
    let w :=
      match remoteConnections w !! host with
      | Some remoteWs => set_remotes (alter ws_close remoteWs) w
      | None => w
      end in
    set_clientGroups (delete host) w
  else w.

(** What the event loop delivers to the server. *)
Inductive Event :=
| Connection (client : nat) (host apiVersion : string)
| ClientClosed (client : nat) (host : string)
| ClientState (client : nat) (st : ReadyState)
| RemoteOpened (r : nat)
| RemoteClosing (r : nat)
| RemoteClosed (r : nat)
| RemoteMessage (r : nat) (msg : string) (isBinary : bool).

(** The host the handlers of upstream socket [r] close over. *)
Definition host_of (w : World) (r : nat) : option string :=
  up_host <$> remotes w !! r.

Definition step (w : World) (e : Event) : World :=
  match e with
  | Connection client host apiVersion => (open client host apiVersion w).1
  | ClientClosed client host =>
      close client host
        (set_clientState (λ f c, if decide (c = client) then CLOSED else f c)
                         w)
  | ClientState client st =>
      set_clientState (λ f c, if decide (c = client) then st else f c) w
  | RemoteOpened r =>
      set_remotes (alter (λ u, if decide (up_state u = CONNECTING)
                               then ws_set_state OPEN u else u) r) w
  | RemoteClosing r =>
      set_remotes (alter (λ u, if decide (up_state u = OPEN)
                               then ws_set_state CLOSING u else u) r) w
  | RemoteClosed r =>
      match host_of w r with
      | Some host => on_close host (set_remotes (alter (ws_set_state CLOSED) r) w)
      | None => w
      end
  | RemoteMessage r msg isBinary =>
      match host_of w r with
      | Some host => on_message host msg isBinary w
      | None => w
      end
  end.

Definition run (w : World) (es : list Event) : World := foldl step w es.

(** Upstream connections for [host] that are not closed yet. *)
Definition live_upstreams (host : string) (w : World) : list Upstream :=
  filter (λ u, up_host u = host ∧ up_state u ≠ CLOSED) (remotes w).

(** How often [close()] was called on upstream socket [r]. *)
Definition closeCalls (w : World) (r : nat) : nat :=
  from_option up_closeCalls 0 (remotes w !! r).

(** [c] is a member of some client group. *)
Definition registered (c : nat) (w : World) : Prop :=
  ∃ host g, clientGroups w !! host = Some g ∧ c ∈ g.

(** The frames sent to [c] so far. *)
Definition frames_to (c : nat) (w : World) : list Frame :=
  filter (λ f, f_client f = c) (outbox w).

(** The event is a new connection of client [c]. *)
Definition connects (c : nat) (e : Event) : Prop :=
  match e with
  | Connection c' _ _ => c' = c
  | _ => False
  end.

(** The frames a message fans out to: one per member of the group whose
    socket is open, in the order of the group. *)
Definition fan_out (w : World) (host msg : string) (isBinary : bool)
  : list Frame :=
  (λ c, {| f_client := c; f_msg := msg; f_binary := isBinary |})
    <$> filter (λ c, clientState w c = OPEN)
               (default [] (clientGroups w !! host)).

(** Every connection entry points at a socket created for its key, and
    no group is empty. *)
Definition wf (w : World) : Prop :=
  (∀ host r, remoteConnections w !! host = Some r →
             host_of w r = Some host)
  ∧ (∀ host g, clientGroups w !! host = Some g → g ≠ [] ∧ NoDup g).

End Relay.

(** ** Discovery registry: the [response] handler of [scanMdns] *)

Module Mdns.

(** A value of the TXT object: [value || true]. *)
Inductive TxtValue := TxtTrue | TxtString (s : string).

Global Instance TxtValue_eq_dec : EqDecision TxtValue.
Proof. solve_decision. Defined.

Record MdnsDevice := {
  name : option string;
  host : option string;
  address : option string;
  port : option nat;
  properties : option (gmap string TxtValue)
}.

Global Instance MdnsDevice_eq_dec : EqDecision MdnsDevice.
Proof. solve_decision. Defined.

Definition empty_device : MdnsDevice :=
  {| name := None; host := None; address := None; port := None;
     properties := None |}.

Inductive RecordData :=
| PTR (data : string)
| SRV (target : string) (srv_port : nat)
| A (data : string)
| TXT (data : list string)
| OtherType.

Record Answer := {
  ans_name : string;
  ans_data : RecordData
}.

Record Packet := {
  answers : list Answer;
  additionals : list Answer
}.

Definition set_name (v : string) (d : MdnsDevice) : MdnsDevice :=
  {| name := Some v; host := host d; address := address d; port := port d;
     properties := properties d |}.

Definition set_location (target : string) (p : nat) (d : MdnsDevice)
  : MdnsDevice :=
  {| name := name d; host := Some target; address := address d;
     port := Some p; properties := properties d |}.

Definition set_address (v : string) (d : MdnsDevice) : MdnsDevice :=
  {| name := name d; host := host d; address := Some v; port := port d;
     properties := properties d |}.

Definition set_properties (v : gmap string TxtValue) (d : MdnsDevice)
  : MdnsDevice :=
  {| name := name d; host := host d; address := address d; port := port d;
     properties := Some v |}.

(** The property names every plain object inherits from
    [Object.prototype].  [MDNS_SERVICES] and [txtObject] are plain
    objects, so [obj[k]] and [k in obj] find these names although
    nothing was stored under them. *)
Definition inherited (k : string) : bool :=
  Str.includes
    ["constructor"; "__proto__"; "hasOwnProperty"; "isPrototypeOf";
     "propertyIsEnumerable"; "toLocaleString"; "toString"; "valueOf";
     "__defineGetter__"; "__defineSetter__"; "__lookupGetter__";
     "__lookupSetter__"] k.

(** [const [key, value] = entry.split('='); txtObject[key] = value || true].
    Assigning a string or [true] to [__proto__] goes to the inherited
    setter, which ignores it: no key is set. *)
Definition txt_entry (txtObject : gmap string TxtValue) (entry : string)
  : gmap string TxtValue :=
  match Str.split "=" entry with
  | key :: rest =>
      let value :=
        match rest with
        | "" :: _ | [] => TxtTrue
        | v :: _ => TxtString v
        end in
      if String.eqb key "__proto__" then txtObject
      else <[key := value]> txtObject
  | [] => txtObject
  end.

Definition parse_txt (txtData : list string) : gmap string TxtValue :=
  foldl txt_entry ∅ txtData.

(** A handler run over a list, stopping at the first failure. *)
Fixpoint fold_handler {S A : Type} (f : S → A → option S) (s : S)
  (l : list A) : option S :=
  match l with
  | [] => Some s
  | a :: l' =>
      match f s a with
      | Some s' => fold_handler f s' l'
      | None => None
      end
  end.

(** One element of
    [response.answers.filter(name === '_homedeck._tcp.local' && type === 'PTR')].
    The result is [None] when the handler leaves the registry: for a
    name that is not stored but inherited, [MDNS_SERVICES[host]] is an
    object of the prototype chain, no record is created, and
    [.name = host] throws (on a built-in function, whose [name] is
    read-only) or writes to [Object.prototype]. *)
Definition on_answer (services : gmap string MdnsDevice) (answer : Answer)
  : option (gmap string MdnsDevice) :=
  match ans_data answer with
  | PTR h =>
      if String.eqb (ans_name answer) "_homedeck._tcp.local" then
        match services !! h with
        | Some _ => Some (alter (set_name h) h services)
        | None =>
            if inherited h then None
            else Some (alter (set_name h) h (<[h := empty_device]> services))
        end
      else Some services
  | _ => Some services
  end.

(** One element of [response.additionals].  [answer.name in
    MDNS_SERVICES] also holds for an inherited name; the SRV and TXT
    cases then write to an object of the prototype chain, and the result
    is [None]. *)
Definition on_additional (services : gmap string MdnsDevice) (answer : Answer)
  : option (gmap string MdnsDevice) :=
  match ans_data answer with
  | SRV target p =>
      match services !! ans_name answer with
      | Some _ =>
          Some (alter (set_location target p) (ans_name answer) services)
      | None => if inherited (ans_name answer) then None else Some services
      end
  | A data =>
      Some ((λ d, if decide (host d = Some (ans_name answer))
                  then set_address data d else d) <$> services)
  | TXT txtData =>
      match services !! ans_name answer with
      | Some _ =>
          Some (alter (set_properties (parse_txt txtData)) (ans_name answer)
                      services)
      | None => if inherited (ans_name answer) then None else Some services
      end
  | PTR _ | OtherType => Some services
  end.

Definition on_response (services : gmap string MdnsDevice) (response : Packet)
  : option (gmap string MdnsDevice) :=
  match fold_handler on_answer services (answers response) with
  | Some services' => fold_handler on_additional services' (additionals response)
  | None => None
  end.

(** What one device announces, and the four fragments it is announced
    in. *)
Record Announcement := {
  an_instance : string;
  an_target : string;
  an_address : string;
  an_port : nat;
  an_txt : list string
}.

Definition frag_name (d : Announcement) : Answer :=
  {| ans_name := "_homedeck._tcp.local"; ans_data := PTR (an_instance d) |}.
Definition frag_location (d : Announcement) : Answer :=
  {| ans_name := an_instance d; ans_data := SRV (an_target d) (an_port d) |}.
Definition frag_address (d : Announcement) : Answer :=
  {| ans_name := an_target d; ans_data := A (an_address d) |}.
Definition frag_attributes (d : Announcement) : Answer :=
  {| ans_name := an_instance d; ans_data := TXT (an_txt d) |}.




(** The record with every field of the announcement filled in. *)
Definition completed (d : Announcement) : MdnsDevice :=
  {| name := Some (an_instance d); host := Some (an_target d);
     address := Some (an_address d); port := Some (an_port d);
     properties := Some (parse_txt (an_txt d)) |}.

End Mdns.

(** ** Front door: the [upgrade] handler

    [pathname.match(/^\/proxy\/(.+)\/v(.+)\/ws$/)].  A greedy group is
    matched by backtracking: the alternatives for [(.+)] are tried
    longest first, and the first one the rest of the pattern accepts
    wins. *)

Module FrontDoor.

(** [.] without the [s] flag: any code unit but a line terminator. *)
Definition dot (c : ascii) : bool :=
  negb (Ascii.eqb c "010") && negb (Ascii.eqb c "013").

Fixpoint all_dot (s : string) : bool :=
  match s with
  | "" => true
  | String c s' => dot c && all_dot s'
  end.

(** A literal at the start of the input: the rest, if it is there. *)
Fixpoint strip_prefix (p s : string) : option string :=
  match p, s with
  | "", _ => Some s
  | String a p', String b s' =>
      if Ascii.eqb a b then strip_prefix p' s' else None
  | String _ _, "" => None
  end.

(** The ways [(.+)] can match at the start of [s], longest first: the
    text matched, and the input left. *)
Fixpoint greedy_dots (s : string) : list (string * string) :=
  match s with
  | "" => []
  | String c s' =>
      if dot c
      then map (λ m, (String c m.1, m.2)) (greedy_dots s') ++ [(String c "", s')]
      else []
  end.

(** The first alternative the continuation accepts. *)
Fixpoint first_match {A B : Type} (k : A → option B) (alts : list A)
  : option B :=
  match alts with
  | [] => None
  | x :: alts' =>
      match k x with
      | Some y => Some y
      | None => first_match k alts'
      end
  end.

(** [match[1]] and [match[2]], or no match. *)
Definition upgrade_match (pathname : string) : option (string * string) :=
  rest ← strip_prefix "/proxy/" pathname;
  first_match
    (λ m1, rest ← strip_prefix "/v" m1.2;
           first_match
             (λ m2, if String.eqb m2.2 "/ws" then Some (m1.1, m2.1) else None)
             (greedy_dots rest))
    (greedy_dots rest).

(** What the handler does with the socket: [socket.destroy()], or
    [wss.handleUpgrade] followed by the [connection] event with the two
    captures. *)
Inductive Upgrade :=
| Destroy
| HandleUpgrade (host apiVersion : string).

Definition on_upgrade (pathname : string) : Upgrade :=
  match upgrade_match pathname with
  | Some (host, apiVersion) => HandleUpgrade host apiVersion
  | None => Destroy
  end.

End FrontDoor.

(** ** The [connection] handler of the WebSocket server

    Each accepted client is a new WebSocket object: the n-th client is
    number n.  Its handlers close over [host] and over the upstream
    socket that [open] returned for it. *)

Module Gateway.
Import Relay.

Record Session := {
  se_host : string;
  se_remoteWs : nat
}.

(** A call [remoteWs.send(msg)] made for a client. *)
Record Sent := {
  s_client : nat;
  s_remote : nat;
  s_msg : string
}.

Record Server := {
  world : World;
  sessions : list Session;
  upstream : list Sent
}.

Definition start : Server :=
  {| world := init; sessions := []; upstream := [] |}.

(** [wss.on('connection', (client, req, host, apiVersion) => ...)] *)
Definition on_connection (host apiVersion : string) (s : Server) : Server :=
  let client := length (sessions s) in
  let opened := open client host apiVersion (world s) in
  {| world := opened.1;
     sessions := sessions s ++ [{| se_host := host; se_remoteWs := opened.2 |}];
     upstream := upstream s |}.

(** [client.on('message', msg => ...)]: forwarded when the captured
    socket is open, dropped otherwise. *)
Definition on_client_message (client : nat) (msg : string) (s : Server)
  : Server :=
  match sessions s !! client with
  | Some se =>
      if decide (readyState (world s) (se_remoteWs se) = OPEN)
      then {| world := world s; sessions := sessions s;
              upstream := upstream s ++
                [{| s_client := client; s_remote := se_remoteWs se;
                    s_msg := msg |}] |}
      else s
  | None => s
  end.

(** [client.on('close', () => remoteWsManager.close(client, host))] *)
Definition on_client_close (client : nat) (s : Server) : Server :=
  match sessions s !! client with
  | Some se =>
      {| world := step (world s) (ClientClosed client (se_host se));
         sessions := sessions s; upstream := upstream s |}
  | None => s
  end.

Definition with_world (f : World → World) (s : Server) : Server :=
  {| world := f (world s); sessions := sessions s; upstream := upstream s |}.

(** What the event loop delivers.  [UpgradeRequest] is an upgrade
    request whose WebSocket handshake goes through when the path
    matches. *)
Inductive Event :=
| UpgradeRequest (pathname : string)
| ClientMessage (client : nat) (msg : string)
| ClientClose (client : nat)
| UpstreamOpened (r : nat)
| UpstreamClosing (r : nat)
| UpstreamClosed (r : nat)
| UpstreamMessage (r : nat) (msg : string) (isBinary : bool).

Definition step (s : Server) (e : Event) : Server :=
  match e with
  | UpgradeRequest pathname =>
      match FrontDoor.on_upgrade pathname with
      | FrontDoor.HandleUpgrade host apiVersion =>
          on_connection host apiVersion s
      | FrontDoor.Destroy => s
      end
  | ClientMessage client msg => on_client_message client msg s
  | ClientClose client => on_client_close client s
  | UpstreamOpened r => with_world (λ w, Relay.step w (RemoteOpened r)) s
  | UpstreamClosing r => with_world (λ w, Relay.step w (RemoteClosing r)) s
  | UpstreamClosed r => with_world (λ w, Relay.step w (RemoteClosed r)) s
  | UpstreamMessage r msg isBinary =>
      with_world (λ w, Relay.step w (RemoteMessage r msg isBinary)) s
  end.

Definition run (es : list Event) : Server := foldl step start es.

(** What holds of every state the server reaches: the manager's state is
    well formed; a member of a host's group is a client that connected
    to that host; the socket a client's handlers hold was constructed
    for the client's host; and every message sent upstream went to the
    socket held for its client. *)
Definition inv (s : Server) : Prop :=
  wf (world s)
  ∧ (∀ host g c, clientGroups (world s) !! host = Some g → c ∈ g →
                 ∃ se, sessions s !! c = Some se ∧ se_host se = host)
  ∧ (∀ c se, sessions s !! c = Some se →
             host_of (world s) (se_remoteWs se) = Some (se_host se))
  ∧ (∀ x, x ∈ upstream s →
          ∃ se, sessions s !! s_client x = Some se
                ∧ se_remoteWs se = s_remote x).

End Gateway.

(** ** Sockets the manager no longer holds *)

Module Lifecycle.
Import Relay.

(** Some connection entry holds socket [r]. *)
Definition referenced (w : World) (r : nat) : Prop :=
  ∃ host, remoteConnections w !! host = Some r.

Definition is_connection (e : Event) : bool :=
  match e with
  | Connection _ _ _ => true
  | _ => false
  end.

End Lifecycle.

(** ** The registry as responses fill it *)

Module Registry.
Import Mdns.

(** A record is filed under the name it carries. *)
Definition filed (services : gmap string MdnsDevice) : Prop :=
  ∀ k d, services !! k = Some d → name d = Some k.

(** The response a device is announced with: the pointer record among
    the answers, the other records among the additionals. *)
Definition announce (d : Announcement) (adds : list Answer) : Packet :=
  {| answers := [frag_name d]; additionals := adds |}.

(** The record the device has when its address was dropped. *)
Definition without_address (d : Announcement) : MdnsDevice :=
  {| name := Some (an_instance d); host := Some (an_target d);
     address := None; port := Some (an_port d);
     properties := Some (parse_txt (an_txt d)) |}.

(** No record is filed under an inherited name. *)
Definition clean (services : gmap string MdnsDevice) : Prop :=
  ∀ k, is_Some (services !! k) → inherited k = false.

(** What a handler keeps of a registry [before]: records filed under
    their names, no inherited name, and every name of [before]. *)
Definition kept (before services : gmap string MdnsDevice) : Prop :=
  filed services ∧ clean services
  ∧ ∀ k, is_Some (before !! k) → is_Some (services !! k).

(** The response announces a service, or locates or describes one, under
    an inherited name. *)
Definition names_inherited (response : Packet) : bool :=
  existsb (λ a, match ans_data a with
                | PTR h =>
                    String.eqb (ans_name a) "_homedeck._tcp.local"
                    && inherited h
                | _ => false
                end) (answers response)
  || existsb (λ a, match ans_data a with
                   | SRV _ _ | TXT _ => inherited (ans_name a)
                   | _ => false
                   end) (additionals response).

(** Among the additionals, the first location record comes before the
    first address record. *)
Fixpoint location_before_address (adds : list Answer) : bool :=
  match adds with
  | [] => false
  | a :: adds' =>
      match ans_data a with
      | SRV _ _ => true
      | A _ => false
      | _ => location_before_address adds'
      end
  end.

End Registry.

(** ** The runtime under the manager

    Two things the manager's code leaves to the WebSocket
    implementation: whether the [close] event of a socket is delivered
    inside [close()], and whether [new WebSocket(url)] accepts the
    URL. *)

Module Runtime.
Import Relay.

(** What the manager can observe of the runtime's [close()]: the ready
    states in which the call delivers the socket's [close] event before
    it returns.  With the ws package on Node the call starts the closing
    handshake and the event is delivered later, from the event loop;
    Bun, which the Dockerfile starts the server with, delivers the event
    of an open socket inside the call. *)
Record Runtime := { closes_inside : ReadyState → bool }.

Definition Node : Runtime := {| closes_inside := λ _, false |}.

Definition Bun : Runtime :=
  {| closes_inside := λ st, bool_decide (st = OPEN) |}.

(** [remoteWs.close()] on socket [r]: the call is counted and the
    handshake started; where the runtime delivers the [close] event
    inside the call, the socket is closed and its [close] handler has
    run when the call returns. *)
Definition remote_close (rt : Runtime) (r : nat) (w : World) : World :=
  let w' := set_remotes (alter ws_close r) w in
  if closes_inside rt (readyState w r) then
    match host_of w r with
    | Some host =>
        on_close host (set_remotes (alter (ws_set_state CLOSED) r) w')
    | None => w'
    end
  else w'.

(** [RemoteWebSocketManager.close] on runtime [rt]. *)
Definition close (rt : Runtime) (client : nat) (host : string) (w : World)
  : World :=
  let w :=
    match clientGroups w !! host with
    | Some group => set_clientGroups (<[host := set_delete client group]>) w
    | None => w
    end in
  let no_clients :=
    match clientGroups w !! host with
    | Some group => bool_decide (length group = 0)
    | None => true
    end in
  if no_clients then
    let w :=
      match remoteConnections w !! host with
      | Some remoteWs => remote_close rt remoteWs w
      | None => w
      end in
    set_clientGroups (delete host) w
  else w.

Section Constructor.
(** Whether [new WebSocket(url)] returns a socket: the constructor
    throws a [SyntaxError] on a string that is no WebSocket URL (a port
    above 65535, a blank in the host, ...). *)
Context (accepts : string → bool).

(** [RemoteWebSocketManager.open] with the constructor's failure: [None]
    when [new WebSocket] throws, which happens before anything is
    stored. *)
Definition open (client : nat) (host apiVersion : string) (w : World)
  : option (World * nat) :=
  let construct :=
    if accepts (up_url (new_upstream host apiVersion))
    then Some (connect client host apiVersion w) else None in
  match remoteConnections w !! host with
  | Some remoteWs =>
      if decide (readyState w remoteWs ≠ OPEN)
      then Some (registerClient client host w, remoteWs)
      else construct
  | None => construct
  end.

(** The [connection] handler and the [upgrade] handler over it; [None]
    when [open] throws. *)
Definition on_connection (host apiVersion : string) (s : Gateway.Server)
  : option Gateway.Server :=
  match open (length (Gateway.sessions s)) host apiVersion (Gateway.world s)
  with
  | Some opened =>
      Some {| Gateway.world := opened.1;
              Gateway.sessions :=
                Gateway.sessions s ++
                [{| Gateway.se_host := host;
                    Gateway.se_remoteWs := opened.2 |}];
              Gateway.upstream := Gateway.upstream s |}
  | None => None
  end.

Definition on_upgrade_request (pathname : string) (s : Gateway.Server)
  : option Gateway.Server :=
  match FrontDoor.on_upgrade pathname with
  | FrontDoor.HandleUpgrade host apiVersion => on_connection host apiVersion s
  | FrontDoor.Destroy => Some s
  end.

End Constructor.

End Runtime.

(** ** Discovery with Bonjour: the [up] handler of [scanMdns] in
       web/server.ts *)

Module Bonjour.

Record Service := {
  name : string;
  addresses : list string;
  port : nat;
  txt : gmap string string
}.

Record MdnsDevice := {
  d_name : string;
  d_address : string;
  d_port : nat;
  d_properties : gmap string string
}.

(** A value inside a template literal; [undefined] prints as itself. *)
Definition show (v : option string) : string := default "undefined" v.

Definition status_url (service : Service) (addr : string) : string :=
  "http://" +:+ addr +:+ ":" +:+ pretty (port service) +:+ "/v"
  +:+ show (txt service !! "api_version") +:+ "/status".

Section Up.
(** The status a [HEAD] request is answered with; [None] when [fetch]
    throws (no route, refused, or the 500 ms timeout). *)
Context (head : string → option nat).

(** The loop over [service.addresses]: the device pushed, if any. *)
Fixpoint probe (service : Service) (addrs : list string) : option MdnsDevice :=
  match addrs with
  | [] => None
  | addr :: addrs' =>
      match head (status_url service addr) with
      | Some status =>
          if status =? 200
          then Some {| d_name := name service; d_address := addr;
                       d_port := port service; d_properties := txt service |}
          else probe service addrs'
      | None => probe service addrs'
      end
  end.

(** The handler for one service; [services] is the array as it is when
    the loop pushes. *)
Definition on_up (service : Service) (services : list MdnsDevice)
  : list MdnsDevice :=
  match probe service (addresses service) with
  | Some device => services ++ [device]
  | None => services
  end.

End Up.

End Bonjour.

(** * Properties *)

(** ** Strings *)

Section StrFacts.
Import Str.

Lemma str_app_cons (c : ascii) (s t : string) :
  String c s +:+ t = String c (s +:+ t).
Proof. reflexivity. Qed.

Lemma str_app_nil_l (s : string) : "" +:+ s = s.
Proof. reflexivity. Qed.

Lemma str_app_nil_r (s : string) : s +:+ "" = s.
Proof. induction s as [|c s IH]; [done|]. by rewrite str_app_cons, IH. Qed.

Lemma str_app_assoc (s t u : string) : (s +:+ t) +:+ u = s +:+ t +:+ u.
Proof. induction s as [|c s IH]; [done|]. by rewrite !str_app_cons, IH. Qed.

Lemma str_length_app (s t : string) :
  String.length (s +:+ t) = String.length s + String.length t.
Proof.
  induction s as [|c s IH]; [done|].
  rewrite str_app_cons. simpl. by rewrite IH.
Qed.

Lemma str_app_eq_nil (s t : string) : s +:+ t = "" → s = "" ∧ t = "".
Proof. destruct s; [done|]. by rewrite str_app_cons. Qed.

Lemma all_digits_app (s t : string) :
  all_digits (s +:+ t) = all_digits s && all_digits t.
Proof.
  induction s as [|c s IH]; [done|].
  rewrite str_app_cons. simpl. by rewrite IH, andb_assoc.
Qed.

Lemma free_of_app sep s t :
  free_of sep (s +:+ t) = free_of sep s && free_of sep t.
Proof.
  induction s as [|c s IH]; [done|].
  rewrite str_app_cons. simpl. by rewrite IH, andb_assoc.
Qed.

Lemma split_free sep s : free_of sep s = true → split sep s = [s].
Proof.
  induction s as [|c s IH]; [done|]. simpl.
  intros [Hc Hs]%andb_true_iff. apply negb_true_iff in Hc.
  by rewrite Hc, (IH Hs).
Qed.

Lemma split_app_sep sep s t :
  free_of sep s = true → split sep (s +:+ String sep t) = s :: split sep t.
Proof.
  induction s as [|c s IH].
  - intros _. rewrite str_app_nil_l. simpl. by rewrite Ascii.eqb_refl.
  - intros H. simpl in H. apply andb_true_iff in H as [Hc Hs].
    apply negb_true_iff in Hc.
    rewrite str_app_cons. simpl. by rewrite Hc, (IH Hs).
Qed.

Lemma digits_free_of sep s :
  is_digit sep = false → all_digits s = true → free_of sep s = true.
Proof.
  intros Hsep. induction s as [|c s IH]; [done|]. simpl.
  intros [Hc Hs]%andb_true_iff. rewrite (IH Hs), andb_true_r.
  apply negb_true_iff, Ascii.eqb_neq. intros ->. congruence.
Qed.

End StrFacts.

(** ** The matcher decides the language *)

Section RegexFacts.
Import Str Regex.

Lemma lang_Eps_inv s : lang Eps s → s = "".
Proof. by inversion 1. Qed.

Lemma lang_Class_inv p s : lang (Class p) s → ∃ c, s = String c "" ∧ p c = true.
Proof. inversion 1; eauto. Qed.

Lemma lang_Cat_inv r1 r2 s :
  lang (Cat r1 r2) s → ∃ s1 s2, s = s1 +:+ s2 ∧ lang r1 s1 ∧ lang r2 s2.
Proof. inversion 1; eauto. Qed.

Lemma lang_Alt_inv r1 r2 s : lang (Alt r1 r2) s → lang r1 s ∨ lang r2 s.
Proof. inversion 1; eauto. Qed.

Lemma nullable_lang r : nullable r = true ↔ lang r "".
Proof.
  split.
  - induction r as [| |p|r1 IH1 r2 IH2|r1 IH1 r2 IH2]; simpl; try done.
    + intros _. constructor.
    + intros [H1 H2]%andb_true_iff.
      rewrite <- (str_app_nil_l ""). constructor; auto.
    + intros [H|H]%orb_true_iff; [apply lang_alt_l|apply lang_alt_r]; auto.
  - intros H. remember "" as s eqn:Hs.
    induction H as [|p c Hp|r1 r2 s1 s2 H1 IH1 H2 IH2|r1 r2 s H IH|r1 r2 s H IH];
      simpl; try done.
    + apply str_app_eq_nil in Hs as [-> ->].
      by rewrite IH1, IH2.
    + by rewrite IH.
    + rewrite IH by done. apply orb_true_r.
Qed.

Lemma deriv_sound c r s : lang (deriv c r) s → lang r (String c s).
Proof.
  revert s.
  induction r as [| |p|r1 IH1 r2 IH2|r1 IH1 r2 IH2]; simpl; intros s H.
  - inversion H.
  - inversion H.
  - destruct (p c) eqn:Hp; [|inversion H].
    apply lang_Eps_inv in H as ->. by constructor.
  - assert (Hcat : ∀ t, lang (Cat (deriv c r1) r2) t → lang (Cat r1 r2) (String c t)).
    { intros t (s1 & s2 & -> & H1 & H2)%lang_Cat_inv.
      rewrite <- str_app_cons. constructor; auto. }
    destruct (nullable r1) eqn:Hn; [|by apply Hcat].
    apply lang_Alt_inv in H as [H|H]; [by apply Hcat|].
    rewrite <- (str_app_nil_l (String c s)).
    constructor; [by apply nullable_lang | auto].
  - apply lang_Alt_inv in H as [H|H];
      [apply lang_alt_l|apply lang_alt_r]; auto.
Qed.

Lemma deriv_complete c r s : lang r (String c s) → lang (deriv c r) s.
Proof.
  intros H. remember (String c s) as t eqn:Ht. revert c s Ht.
  induction H as [|p c' Hp|r1 r2 s1 s2 H1 IH1 H2 IH2|r1 r2 t H IH|r1 r2 t H IH];
    intros c s Ht; simpl.
  - done.
  - injection Ht as -> <-. rewrite Hp. constructor.
  - destruct s1 as [|c1 s1].
    + rewrite str_app_nil_l in Ht.
      apply nullable_lang in H1. rewrite H1.
      apply lang_alt_r. by apply IH2.
    + rewrite str_app_cons in Ht. injection Ht as -> <-.
      assert (lang (Cat (deriv c r1) r2) (s1 +:+ s2))
        by (constructor; [by apply IH1 | done]).
      destruct (nullable r1); [by apply lang_alt_l | done].
  - apply lang_alt_l. by apply IH.
  - apply lang_alt_r. by apply IH.
Qed.

Lemma test_lang r s : test r s = true ↔ lang r s.
Proof.
  revert r. induction s as [|c s IH]; intros r; simpl.
  - apply nullable_lang.
  - rewrite IH. split; [apply deriv_sound | apply deriv_complete].
Qed.

Lemma lang_chr c s : lang (chr c) s ↔ s = String c "".
Proof.
  split.
  - intros (c' & -> & Hc)%lang_Class_inv.
    by apply Ascii.eqb_eq in Hc as ->.
  - intros ->. constructor. apply Ascii.eqb_refl.
Qed.

Lemma lang_digit_cons r s :
  lang (Cat digit r) s ↔
  ∃ c s', s = String c s' ∧ is_digit c = true ∧ lang r s'.
Proof.
  split.
  - intros (s1 & s2 & -> & (c & -> & Hc)%lang_Class_inv & H2)%lang_Cat_inv.
    exists c, s2. by rewrite str_app_cons, str_app_nil_l.
  - intros (c & s' & -> & Hc & H).
    change (String c s') with (String c "" +:+ s').
    constructor; [by constructor | done].
Qed.

Lemma lang_cat_assoc r1 r2 r3 s :
  lang (Cat (Cat r1 r2) r3) s ↔ lang (Cat r1 (Cat r2 r3)) s.
Proof.
  split.
  - intros (s12 & s3 & -> & (s1 & s2 & -> & H1 & H2)%lang_Cat_inv & H3)%lang_Cat_inv.
    rewrite str_app_assoc. by repeat constructor.
  - intros (s1 & s23 & -> & H1 & (s2 & s3 & -> & H2 & H3)%lang_Cat_inv)%lang_Cat_inv.
    rewrite <- str_app_assoc. by repeat constructor.
Qed.

Lemma lang_upto_digit n s :
  lang (upto n digit) s ↔ all_digits s = true ∧ String.length s ≤ n.
Proof.
  revert s. induction n as [|n IH]; intros s; simpl.
  - split.
    + by intros ->%lang_Eps_inv.
    + intros [_ Hl]. destruct s; simpl in Hl; [constructor | lia].
  - split.
    + intros [->%lang_Eps_inv|H]%lang_Alt_inv; [simpl; split; [done|lia]|].
      apply lang_digit_cons in H as (c & s' & -> & Hc & H).
      apply IH in H as [Hd Hl]. simpl. rewrite Hc, Hd. split; [done|lia].
    + intros [Hd Hl]. destruct s as [|c s]; [apply lang_alt_l; constructor|].
      simpl in Hd, Hl. apply andb_true_iff in Hd as [Hc Hd].
      apply lang_alt_r, lang_digit_cons. exists c, s.
      split_and!; [done..|]. apply IH. split; [done|lia].
Qed.

Lemma lang_range_digit lo hi s :
  lo ≤ hi →
  lang (range lo hi digit) s ↔
  all_digits s = true ∧ lo ≤ String.length s ≤ hi.
Proof.
  unfold range. revert hi s. induction lo as [|lo IH]; intros hi s Hle.
  - simpl. rewrite Nat.sub_0_r. split.
    + intros (s1 & s2 & -> & ->%lang_Eps_inv & H)%lang_Cat_inv.
      rewrite str_app_nil_l. apply lang_upto_digit in H as [??].
      split; [done|lia].
    + intros [Hd Hl]. rewrite <- (str_app_nil_l s).
      constructor; [constructor|]. apply lang_upto_digit. split; [done|lia].
  - destruct hi as [|hi]; [lia|].
    change (rep (S lo) digit) with (Cat digit (rep lo digit)).
    rewrite lang_cat_assoc, lang_digit_cons.
    replace (S hi - S lo) with (hi - lo) by lia.
    split.
    + intros (c & s' & -> & Hc & H). apply IH in H as [Hd Hl]; [|lia].
      simpl. rewrite Hc, Hd. split; [done|lia].
    + intros [Hd Hl]. destruct s as [|c s]; [simpl in Hl; lia|].
      simpl in Hd, Hl. apply andb_true_iff in Hd as [Hc Hd].
      exists c, s. split_and!; [done..|]. apply IH; [lia|]. split; [done|lia].
Qed.

End RegexFacts.

(** ** Host validator *)

Section HostFacts.
Import Str Regex Host.

Lemma host_regex_lang s :
  lang host_regex s ↔ dotted_host (digits_of 1 3) (digits_of 1 5) s.
Proof.
  unfold host_regex, dotted_host. simpl rep. split.
  - intros (s1 & s2 & -> & H1 & H2)%lang_Cat_inv.
    apply lang_Cat_inv in H1 as (ga & s3 & -> & Ha & H1).
    apply lang_Cat_inv in H1 as (gb & s4 & -> & Hb & H1).
    apply lang_Cat_inv in H1 as (gc & s5 & -> & Hc & ->%lang_Eps_inv).
    apply lang_Cat_inv in Ha as (a & ? & -> & Ha & ->%lang_chr).
    apply lang_Cat_inv in Hb as (b & ? & -> & Hb & ->%lang_chr).
    apply lang_Cat_inv in Hc as (c & ? & -> & Hc & ->%lang_chr).
    apply lang_Cat_inv in H2 as (d & ? & -> & Hd & H2).
    apply lang_Cat_inv in H2 as (? & p & -> & ->%lang_chr & Hp).
    apply lang_range_digit in Ha, Hb, Hc, Hd, Hp; try lia.
    exists a, b, c, d, p. split; [|done].
    by rewrite str_app_nil_r, !str_app_assoc.
  - intros (a & b & c & d & p & -> & Ha & Hb & Hc & Hd & Hp).
    apply (lang_range_digit 1 3) in Ha, Hb, Hc, Hd; try lia.
    apply (lang_range_digit 1 5) in Hp; try lia.
    assert (Hg : ∀ x, lang (range 1 3 digit) x →
                      lang (Cat (range 1 3 digit) (chr ".")) (x +:+ "."))
      by (intros x Hx; constructor; [done | by apply lang_chr]).
    replace (a +:+ "." +:+ b +:+ "." +:+ c +:+ "." +:+ d +:+ ":" +:+ p)
      with (((a +:+ ".") +:+ (b +:+ ".") +:+ (c +:+ ".") +:+ "")
            +:+ d +:+ ":" +:+ p)
      by (by rewrite str_app_nil_r, !str_app_assoc).
    repeat (constructor; auto).
Qed.

(** On a string of the dotted shape, the two [split]s recover the four
    groups and the port, and [Number] reads each as its decimal value. *)
Lemma isValidHost_dotted (a b c d p : string) :
  digits_of 1 3 a → digits_of 1 3 b → digits_of 1 3 c → digits_of 1 3 d →
  digits_of 1 5 p →
  isValidHost (a +:+ "." +:+ b +:+ "." +:+ c +:+ "." +:+ d +:+ ":" +:+ p)
  = (decimal_value a <=? 255)%N && (decimal_value b <=? 255)%N
    && (decimal_value c <=? 255)%N && (decimal_value d <=? 255)%N
    && ((1 <=? decimal_value p)%N && (decimal_value p <=? 65535)%N).
Proof.
  intros Ha Hb Hc Hd Hp. unfold isValidHost.
  assert (Ht : test host_regex
                 (a +:+ "." +:+ b +:+ "." +:+ c +:+ "." +:+ d +:+ ":" +:+ p)
               = true).
  { apply test_lang, host_regex_lang. by exists a, b, c, d, p. }
  rewrite Ht. simpl negb. cbv iota.
  destruct Ha as [Ha _], Hb as [Hb _], Hc as [Hc _], Hd as [Hd _],
           Hp as [Hp _].
  assert (Hfree : ∀ sep x, is_digit sep = false → all_digits x = true →
                           free_of sep x = true)
    by (intros; by apply digits_free_of).
  replace (a +:+ "." +:+ b +:+ "." +:+ c +:+ "." +:+ d +:+ ":" +:+ p)
    with ((a +:+ "." +:+ b +:+ "." +:+ c +:+ "." +:+ d) +:+ String ":" p)
    by (by rewrite !str_app_assoc).
  rewrite split_app_sep.
  2:{ by rewrite !free_of_app, (Hfree ":"%char a), (Hfree ":"%char b),
        (Hfree ":"%char c), (Hfree ":"%char d). }
  rewrite (split_free ":" p) by auto.
  change ("." +:+ b +:+ "." +:+ c +:+ "." +:+ d)
    with (String "." (b +:+ String "." (c +:+ String "." d))).
  rewrite !split_app_sep, split_free by auto.
  simpl. unfold Number. rewrite Ha, Hb, Hc, Hd, Hp. simpl.
  assert (H0 : ∀ n, (0 <=? n)%N = true)
    by (intros n; apply N.leb_le, N.le_0_l).
  rewrite !H0. simpl. by rewrite andb_true_r, !andb_assoc.
Qed.

Lemma decimal_digits_of (len : nat) (lo hi : N) (s : string) :
  decimal_upto len lo hi s ↔
  digits_of 1 len s ∧ (lo ≤ decimal_value s)%N ∧ (decimal_value s ≤ hi)%N.
Proof.
  unfold decimal_upto, decimal_in, digits_of.
  assert (Hne : s ≠ "" ↔ 1 ≤ String.length s).
  { destruct s; simpl; split; intros; try done; lia. }
  rewrite Hne. tauto.
Qed.

Lemma isValidHost_bounded s : isValidHost s = true ↔ bounded_valid_host s.
Proof.
  split.
  - intros H.
    assert (Ht : test host_regex s = true).
    { unfold isValidHost in H. by destruct (test host_regex s). }
    apply test_lang, host_regex_lang in Ht
      as (a & b & c & d & p & -> & Ha & Hb & Hc & Hd & Hp).
    rewrite isValidHost_dotted in H by done.
    repeat (apply andb_true_iff in H as [H ?]).
    apply andb_true_iff in H0 as [??].
    repeat match goal with
           | Hle : (_ <=? _)%N = true |- _ => apply N.leb_le in Hle
           end.
    exists a, b, c, d, p. split; [done|].
    rewrite !decimal_digits_of. split_and!; try done; lia.
  - intros (a & b & c & d & p & -> & Ha & Hb & Hc & Hd & Hp).
    apply decimal_digits_of in Ha as (Ha & _ & ?), Hb as (Hb & _ & ?),
      Hc as (Hc & _ & ?), Hd as (Hd & _ & ?), Hp as (Hp & ? & ?).
    rewrite isValidHost_dotted by done.
    repeat (apply andb_true_iff; split); by apply N.leb_le.
Qed.

End HostFacts.

(** C6 (as amended).  [isValidHost s] is true exactly when [s] is four
    dot-separated groups of one to three decimal digits, each with a
    value in [0,255], then a colon, then one to five decimal digits with
    a value in [1,65535]; the five sample hosts of the specification are
    classified as it says. *)
Theorem isValidHost_iff_bounded :
  (∀ s, Host.isValidHost s = true ↔ Host.bounded_valid_host s)
  ∧ Host.isValidHost "127.0.0.1:8080" = true
  ∧ Host.isValidHost "256.1.1.1:80" = false
  ∧ Host.isValidHost "10.0.0.1:0" = false
  ∧ Host.isValidHost "10.0.0.1:65535" = true
  ∧ Host.isValidHost "localhost:80" = false.
Proof.
  split; [apply isValidHost_bounded|]. by vm_compute.
Qed.

(** Every host the validator accepts is a host in the specification's
    sense. *)
Lemma isValidHost_spec_valid s :
  Host.isValidHost s = true → Host.spec_valid_host s.
Proof.
  intros (a & b & c & d & p & -> & Ha & Hb & Hc & Hd & Hp)%isValidHost_bounded.
  exists a, b, c, d, p. unfold Host.decimal_upto in *. tauto.
Qed.

(** C6 (as stated) fails: a port written with six digits, [000080], is a
    decimal integer in [1,65535], yet the host is rejected. *)
Lemma isValidHost_rejects_long_port :
  Host.spec_valid_host "10.0.0.1:000080"
  ∧ Host.isValidHost "10.0.0.1:000080" = false.
Proof.
  split; [|by vm_compute].
  exists "10", "0", "0", "1", "000080".
  unfold Host.decimal_in. by vm_compute.
Qed.

(** ** Proxy routes *)

Section ProxyFacts.
Import Host Proxy.
Context {J : Type}.
Context (upstream : Request → option string).
Context (parse : string → option J) (stringify : J → string).

Lemma includes_elem_of (arr : list string) (x : string) :
  Str.includes arr x = true ↔ x ∈ arr.
Proof.
  unfold Str.includes. rewrite existsb_exists. split.
  - intros (y & Hy%list_elem_of_In & ->%String.eqb_eq). done.
  - intros Hx. exists x. split; [by apply list_elem_of_In|].
    apply String.eqb_refl.
Qed.

Lemma includes_not_elem_of (arr : list string) (x : string) :
  x ∉ arr → Str.includes arr x = false.
Proof.
  intros Hx. apply not_true_is_false. by rewrite includes_elem_of.
Qed.

Lemma handle_rejects_endpoint m host apiVersion endpoint postData log :
  isValidHost host = true →
  endpoint ∉ whitelist m →
  handle upstream parse stringify m host apiVersion endpoint postData log
  = (log, Ok (ErrorObject ("Invalid endpoint: " +:+ endpoint))).
Proof.
  intros Hh He%includes_not_elem_of.
  destruct m; unfold whitelist in He; unfold handle, proxy_get, proxy_post;
    by rewrite Hh, He.
Qed.

Lemma handle_unreachable m host apiVersion endpoint postData log :
  isValidHost host = true →
  endpoint ∈ whitelist m →
  upstream_fails upstream parse (decodes m endpoint)
    (request_of stringify m host apiVersion endpoint postData) →
  handle upstream parse stringify m host apiVersion endpoint postData log
  = (log ++ [request_of stringify m host apiVersion endpoint postData],
     Ok (ErrorObject
           ("Unreachable: " +:+ proxy_url host apiVersion endpoint))).
Proof.
  intros Hh He%includes_elem_of Hf.
  unfold upstream_fails, request_of, decodes in Hf.
  destruct m; unfold whitelist in He;
    unfold handle, proxy_get, proxy_post; rewrite Hh, He; simpl;
    unfold try_catch, fetch_json, fetch_text, mbind, Net_bind, mret, Net_ret.
  - destruct (String.eqb endpoint "schema"); simpl in *;
      destruct (upstream _) as [body|]; try done;
      destruct Hf as [? Hp]; try done. by rewrite Hp.
  - destruct (upstream _) as [body|]; try done.
    destruct Hf as [_ Hp]. by rewrite Hp.
Qed.

Lemma handle_never_throws m host apiVersion endpoint postData log :
  ∃ log' reply,
    handle upstream parse stringify m host apiVersion endpoint postData log
    = (log', Ok reply).
Proof.
  destruct m; unfold handle, proxy_get, proxy_post.
  all: destruct (isValidHost host); cbn [negb]; [|by eexists _, _].
  all: match goal with
       | |- context [Str.includes ?l ?e] => destruct (Str.includes l e)
       end; cbn [negb]; [|by eexists _, _].
  all: unfold try_catch, fetch_json, fetch_text, mbind, Net_bind, mret,
         Net_ret.
  all: try match goal with
           | |- context [String.eqb ?e "schema"] =>
               destruct (String.eqb e "schema")
           end.
  all: destruct (upstream _) as [body|]; [|by eexists _, _].
  all: try match goal with
           | |- context [parse ?b] => destruct (parse b)
           end; by eexists _, _.
Qed.

(** C7.  On a valid host, an operation outside the method's whitelist
    ([GET]: configuration, schema; [POST]: configuration, start, stop)
    is answered with the error object [Invalid endpoint: <operation>],
    and the handler sends no request upstream: the log of requests is
    left as it was. *)
Theorem proxy_unknown_operation_rejected
  (m : Method) (host apiVersion endpoint : string) (postData : J)
  (log : list Request) :
  isValidHost host = true →
  endpoint ∉ whitelist m →
  ∃ error,
    handle upstream parse stringify m host apiVersion endpoint postData log
    = (log, Ok (ErrorObject error))
    ∧ error = "Invalid endpoint: " +:+ endpoint.
Proof.
  intros Hh He. eexists. split; [|done].
  by apply handle_rejects_endpoint.
Qed.

(** C8.  On a valid host and a whitelisted operation, when the upstream
    request fails (no answer, or an answer that does not decode where
    the handler decodes JSON) the handler answers with the error object
    [Unreachable: http://<host>/v<version>/<operation>] after its one
    request; and whatever the input, a handler ends with a reply, never
    with an exception. *)
Theorem proxy_unreachable_is_reported
  (m : Method) (host apiVersion endpoint : string) (postData : J)
  (log : list Request) :
  isValidHost host = true →
  endpoint ∈ whitelist m →
  upstream_fails upstream parse (decodes m endpoint)
    (request_of stringify m host apiVersion endpoint postData) →
  handle upstream parse stringify m host apiVersion endpoint postData log
  = (log ++ [request_of stringify m host apiVersion endpoint postData],
     Ok (ErrorObject
           ("Unreachable: http://" +:+ host +:+ "/v" +:+ apiVersion
            +:+ "/" +:+ endpoint)))
  ∧ (∀ m' host' apiVersion' endpoint' postData' log',
       ∃ log'' reply,
         handle upstream parse stringify m' host' apiVersion' endpoint'
                postData' log'
         = (log'', Ok reply)).
Proof.
  intros Hh He Hf. split; [|intros; apply handle_never_throws].
  by rewrite handle_unreachable.
Qed.

End ProxyFacts.

(** ** Relay manager *)

Section RelayFacts.
Import Relay.

Local Ltac world_eq :=
  repeat match goal with w : World |- _ => destruct w end;
  unfold set_remoteConnections, set_clientGroups, set_remotes,
    set_clientState, set_outbox; simpl; f_equal.

Lemma set_add_elem c g : c ∈ set_add c g.
Proof. unfold set_add. case_decide; set_solver. Qed.

Lemma set_add_subseteq c g : g ⊆ set_add c g.
Proof. unfold set_add. case_decide; set_solver. Qed.

Lemma set_delete_elem c x g : x ∈ set_delete c g ↔ x ∈ g ∧ x ≠ c.
Proof. unfold set_delete. rewrite list_elem_of_filter. tauto. Qed.

Lemma set_delete_not_elem c g : c ∉ g → set_delete c g = g.
Proof.
  unfold set_delete. induction g as [|x g IH]; [done|].
  intros Hc. rewrite filter_cons. case_decide.
  - f_equal. apply IH. set_solver.
  - set_solver.
Qed.

Lemma set_delete_idemp c g : set_delete c (set_delete c g) = set_delete c g.
Proof. apply set_delete_not_elem. rewrite set_delete_elem. tauto. Qed.

Lemma send_clientState c msg b w :
  clientState (send c msg b w) = clientState w.
Proof. done. Qed.

Lemma on_message_fan_out host msg b w :
  on_message host msg b w = set_outbox (λ o, o ++ fan_out w host msg b) w.
Proof.
  unfold on_message, fan_out.
  generalize (default [] (clientGroups w !! host)) as clients.
  intros clients. revert w. induction clients as [|c clients IH]; intros w.
  - simpl. world_eq. by rewrite List.app_nil_r.
  - simpl. rewrite IH, filter_cons.
    destruct (decide (clientState w c = OPEN)) as [Hc|Hc].
    + rewrite send_clientState. unfold send. world_eq.
      by rewrite <- List.app_assoc.
    + done.
Qed.

(** C3.  A message arriving on the upstream connection for [host] is
    sent, with the same payload and the same binary flag, once to each
    member of the host's client group whose ready state is [OPEN], in
    the order of the group, and to nobody else; the groups (and so the
    members that were skipped) and the rest of the manager's state are
    left as they were. *)
Theorem message_fans_out_to_open_members
  (w : World) (host msg : string) (isBinary : bool) :
  let w' := on_message host msg isBinary w in
  outbox w' = outbox w ++ fan_out w host msg isBinary
  ∧ (f_client <$> fan_out w host msg isBinary)
    = filter (λ c, clientState w c = OPEN)
             (default [] (clientGroups w !! host))
  ∧ Forall (λ f, f_msg f = msg ∧ f_binary f = isBinary)
           (fan_out w host msg isBinary)
  ∧ clientGroups w' = clientGroups w
  ∧ remoteConnections w' = remoteConnections w
  ∧ remotes w' = remotes w
  ∧ clientState w' = clientState w.
Proof.
  intros w'. subst w'. rewrite on_message_fan_out.
  split_and!; try done.
  - unfold fan_out. rewrite <- list_fmap_compose.
    apply list_fmap_id.
  - unfold fan_out. apply Forall_fmap, Forall_true. done.
Qed.

Lemma readyState_in_heap w r st :
  readyState w r = st → st ≠ CLOSED → r < length (remotes w).
Proof.
  unfold readyState. intros H Hst.
  destruct (remotes w !! r) eqn:Hr; [by eapply lookup_lt_Some|].
  simpl in H. congruence.
Qed.

Lemma open_reuse w client host apiVersion r :
  remoteConnections w !! host = Some r → readyState w r ≠ OPEN →
  open client host apiVersion w = (registerClient client host w, r).
Proof. intros Hr Hst. unfold open. rewrite Hr. by rewrite decide_True. Qed.

Lemma open_replace w client host apiVersion r :
  remoteConnections w !! host = Some r → readyState w r = OPEN →
  open client host apiVersion w = connect client host apiVersion w.
Proof.
  intros Hr Hst. unfold open. rewrite Hr. rewrite decide_False; [done|].
  by intros [].
Qed.

Lemma open_absent w client host apiVersion :
  remoteConnections w !! host = None →
  open client host apiVersion w = connect client host apiVersion w.
Proof. intros Hr. unfold open. by rewrite Hr. Qed.

(** X23.  When [host] has a connection entry whose socket is not
    [OPEN], [open] returns that socket, constructs no socket and leaves
    the connection map as it was; the client joins the host's group if
    the host has one, and otherwise nothing changes at all. *)
Theorem open_reuses_connection_not_open
  (w : World) (client : nat) (host apiVersion : string) (r : nat) :
  remoteConnections w !! host = Some r →
  readyState w r ≠ OPEN →
  let w' := (open client host apiVersion w).1 in
  (open client host apiVersion w).2 = r
  ∧ remotes w' = remotes w
  ∧ remoteConnections w' = remoteConnections w
  ∧ match clientGroups w !! host with
    | Some g =>
        clientGroups w' = <[host := set_add client g]> (clientGroups w)
        ∧ client ∈ set_add client g ∧ g ⊆ set_add client g
    | None => w' = w
    end.
Proof.
  intros Hr Hst w'. subst w'. rewrite (open_reuse _ _ _ _ r) by done.
  simpl. unfold registerClient.
  destruct (clientGroups w !! host) as [g|] eqn:Hg; [|done].
  split_and!; try done.
  - apply set_add_elem.
  - apply set_add_subseteq.
Qed.

Lemma close_no_group c h w :
  clientGroups w !! h = None →
  close c h w =
  match remoteConnections w !! h with
  | Some r => set_remotes (alter ws_close r) w
  | None => w
  end.
Proof.
  intros Hg. unfold close. rewrite Hg. cbv zeta. rewrite Hg.
  destruct (remoteConnections w !! h) as [r|]; destruct w; simpl in *;
    unfold set_clientGroups, set_remotes; simpl; f_equal;
    by apply delete_id.
Qed.

Lemma close_last c h w g :
  clientGroups w !! h = Some g → set_delete c g = [] →
  close c h w =
  set_clientGroups (delete h)
    match remoteConnections w !! h with
    | Some r => set_remotes (alter ws_close r) w
    | None => w
    end.
Proof.
  intros Hg Hd. unfold close. rewrite Hg. simpl.
  rewrite lookup_insert_eq, Hd. simpl.
  destruct (remoteConnections w !! h) as [r|]; destruct w; simpl in *;
    unfold set_clientGroups, set_remotes; simpl; f_equal;
    by rewrite delete_insert_eq.
Qed.

Lemma close_others_left c h w g :
  clientGroups w !! h = Some g → set_delete c g ≠ [] →
  close c h w = set_clientGroups (<[h := set_delete c g]>) w.
Proof.
  intros Hg Hd. unfold close. rewrite Hg. simpl.
  rewrite lookup_insert_eq, bool_decide_false; [done|].
  by destruct (set_delete c g).
Qed.

Lemma close_not_member c h w g :
  clientGroups w !! h = Some g → g ≠ [] → c ∉ g → close c h w = w.
Proof.
  intros Hg Hne Hc.
  rewrite (close_others_left _ _ _ g), set_delete_not_elem by
    (rewrite ?set_delete_not_elem; done).
  destruct w; unfold set_clientGroups; simpl in *; f_equal.
  by apply insert_id.
Qed.

(** After [close], the host has no group, or a non-empty one without the
    client. *)
Lemma close_group_after c h w :
  match clientGroups (close c h w) !! h with
  | Some g => g ≠ [] ∧ c ∉ g
  | None => True
  end.
Proof.
  destruct (clientGroups w !! h) as [g|] eqn:Hg.
  - destruct (decide (set_delete c g = [])) as [Hd|Hd].
    + rewrite (close_last _ _ _ g) by done.
      destruct (remoteConnections w !! h); simpl; by rewrite lookup_delete_eq.
    + rewrite (close_others_left _ _ _ g) by done. simpl.
      rewrite lookup_insert_eq. split; [done|].
      rewrite set_delete_elem. tauto.
  - rewrite close_no_group by done.
    destruct (remoteConnections w !! h); simpl; by rewrite Hg.
Qed.

Lemma registered_open x c h v w :
  registered x (open c h v w).1 → x = c ∨ registered x w.
Proof.
  intros (h' & g' & Hg' & Hx).
  assert (Hconn : registered x (connect c h v w).1 → x = c ∨ registered x w).
  { clear. intros (h' & g' & Hg' & Hx). simpl in Hg'.
    apply lookup_insert_Some in Hg' as [[<- <-]|[_ Hg']].
    - left. by apply list_elem_of_singleton.
    - right. by exists h', g'. }
  unfold open in Hg'.
  destruct (remoteConnections w !! h) as [r|]; [|apply Hconn; by exists h', g'].
  case_decide; [|apply Hconn; by exists h', g'].
  simpl in Hg'. unfold registerClient in Hg'.
  destruct (clientGroups w !! h) as [g|] eqn:Hg; [|right; by exists h', g'].
  simpl in Hg'. apply lookup_insert_Some in Hg' as [[<- <-]|[_ Hg']].
  - unfold set_add in Hx. case_decide; [right; by exists h, g|].
    apply elem_of_app in Hx as [Hx|Hx]; [right; by exists h, g|].
    left. by apply list_elem_of_singleton.
  - right. by exists h', g'.
Qed.

Lemma registered_close x c h w : registered x (close c h w) → registered x w.
Proof.
  intros (h' & g' & Hg' & Hx).
  destruct (clientGroups w !! h) as [g|] eqn:Hg.
  - destruct (decide (set_delete c g = [])) as [Hd|Hd].
    + rewrite (close_last _ _ _ g) in Hg' by done.
      assert (delete h (clientGroups w) !! h' = Some g') as Hdel
        by (by destruct (remoteConnections w !! h)).
      apply lookup_delete_Some in Hdel as [_ ?]. by exists h', g'.
    + rewrite (close_others_left _ _ _ g) in Hg' by done. simpl in Hg'.
      apply lookup_insert_Some in Hg' as [[<- <-]|[_ Hg']].
      * apply set_delete_elem in Hx as [Hx _]. by exists h, g.
      * by exists h', g'.
  - rewrite close_no_group in Hg' by done.
    exists h', g'. by destruct (remoteConnections w !! h).
Qed.

Lemma open_outbox c h v w : outbox (open c h v w).1 = outbox w.
Proof.
  unfold open, registerClient.
  destruct (remoteConnections w !! h); [case_decide|]; try done.
  by destruct (clientGroups w !! h).
Qed.

Lemma close_outbox c h w : outbox (close c h w) = outbox w.
Proof.
  destruct (clientGroups w !! h) as [g|] eqn:Hg.
  - destruct (decide (set_delete c g = [])) as [Hd|Hd].
    + rewrite (close_last _ _ _ g) by done.
      by destruct (remoteConnections w !! h).
    + by rewrite (close_others_left _ _ _ g).
  - rewrite close_no_group by done.
    by destruct (remoteConnections w !! h).
Qed.

Lemma frames_to_fan_out c w h msg b :
  ¬ registered c w →
  filter (λ f, f_client f = c) (fan_out w h msg b) = [].
Proof.
  intros Hc. unfold fan_out.
  destruct (clientGroups w !! h) as [g|] eqn:Hg; [|done]. simpl.
  assert (c ∉ g) as Hcg by (intros ?; apply Hc; by exists h, g).
  clear Hg. induction g as [|x g IH]; [done|].
  rewrite filter_cons. case_decide.
  - rewrite fmap_cons, filter_cons. simpl. rewrite decide_False by set_solver.
    apply IH. set_solver.
  - apply IH. set_solver.
Qed.

(** A client outside every group stays outside, and is sent nothing, as
    long as it does not connect. *)
Lemma step_unregistered c w e :
  ¬ registered c w → ¬ connects c e →
  ¬ registered c (step w e) ∧ frames_to c (step w e) = frames_to c w.
Proof.
  intros Hc He. unfold frames_to.
  destruct e as [c' h v|c' h|c' st|r|r|r|r msg b]; simpl in *.
  - rewrite open_outbox. split; [|done].
    intros [->|?]%registered_open; done.
  - rewrite close_outbox. split; [|done].
    intros Hr%registered_close. by apply Hc.
  - done.
  - done.
  - done.
  - destruct (host_of w r); done.
  - destruct (host_of w r) as [h|]; [|done].
    rewrite on_message_fan_out. simpl. split; [done|].
    by rewrite filter_app, frames_to_fan_out, List.app_nil_r.
Qed.

Lemma run_unregistered c w es :
  ¬ registered c w → Forall (λ e, ¬ connects c e) es →
  ¬ registered c (run w es) ∧ frames_to c (run w es) = frames_to c w.
Proof.
  intros Hc Hes. revert w Hc.
  induction Hes as [|e es He Hes IH]; intros w Hc; [done|].
  simpl. destruct (step_unregistered c w e Hc He) as [Hc' Hf].
  destruct (IH _ Hc') as [? ?]. split; [done|]. congruence.
Qed.

(** C10.  When [host] has a connection entry whose socket is [OPEN],
    [open] constructs a new socket, stores it under [host] and returns
    it, and replaces the host's group by the one-member group of the new
    client; the groups of other hosts are untouched.  A client other
    than the new one that is in no other host's group is then in no
    group, and stays out of every group and receives no frame through
    any later events, as long as it does not connect again. *)
Theorem open_replaces_open_connection
  (w : World) (client : nat) (host apiVersion : string) (r : nat) :
  remoteConnections w !! host = Some r →
  readyState w r = OPEN →
  let w' := (open client host apiVersion w).1 in
  let r' := (open client host apiVersion w).2 in
  r' = length (remotes w) ∧ r' ≠ r
  ∧ remotes w' = remotes w ++ [new_upstream host apiVersion]
  ∧ remoteConnections w' = <[host := r']> (remoteConnections w)
  ∧ clientGroups w' = <[host := [client]]> (clientGroups w)
  ∧ (∀ c, c ≠ client →
          (∀ h g, h ≠ host → clientGroups w !! h = Some g → c ∉ g) →
          ¬ registered c w'
          ∧ ∀ es, Forall (λ e, ¬ connects c e) es →
                  ¬ registered c (run w' es)
                  ∧ frames_to c (run w' es) = frames_to c w').
Proof.
  intros Hr Hst w' r'. subst w' r'.
  rewrite (open_replace _ _ _ _ r) by done. simpl.
  split_and!; try done.
  - apply readyState_in_heap in Hst; [lia|done].
  - intros c Hc Hother.
    assert (Hun : ¬ registered c (connect client host apiVersion w).1).
    { intros (h & g & Hg & Hx). simpl in Hg.
      apply lookup_insert_Some in Hg as [[<- <-]|[Hne Hg]].
      - by apply list_elem_of_singleton in Hx.
      - by apply (Hother h g). }
    split; [done|]. intros es Hes. by apply run_unregistered.
Qed.

(** *** The invariant of the manager's state *)

Lemma host_of_alter f r r' w :
  (∀ u, up_host (f u) = up_host u) →
  host_of (set_remotes (alter f r) w) r' = host_of w r'.
Proof.
  intros Hf. unfold host_of. simpl. rewrite list_lookup_alter.
  case_decide; [subst|done]. destruct (remotes w !! r'); simpl; [|done].
  by rewrite Hf.
Qed.

Lemma set_add_NoDup c g : NoDup g → NoDup (set_add c g).
Proof.
  intros Hg. unfold set_add. case_decide; [done|].
  apply NoDup_app. split_and!; [done| |apply NoDup_singleton].
  intros x Hx ->%list_elem_of_singleton. done.
Qed.

Lemma set_add_nonempty c g : set_add c g ≠ [].
Proof.
  intros Hg. pose proof (set_add_elem c g) as Hc. rewrite Hg in Hc.
  by apply elem_of_nil in Hc.
Qed.

Lemma wf_init : wf init.
Proof. split; intros ??; simpl; by rewrite lookup_empty. Qed.

Lemma wf_connect c h v w : wf w → wf (connect c h v w).1.
Proof.
  intros [Hconn Hgrp]. split; simpl.
  - intros h' r [[<- <-]|[_ Hr]]%lookup_insert_Some; unfold host_of; simpl.
    + by rewrite lookup_app_r, Nat.sub_diag.
    + apply Hconn in Hr. unfold host_of in Hr.
      destruct (remotes w !! r) as [u|] eqn:Hu; [|done].
      by rewrite (lookup_app_l_Some _ _ _ u).
  - intros h' g [[<- <-]|[_ Hg]]%lookup_insert_Some; [|by eapply Hgrp].
    split; [done|apply NoDup_singleton].
Qed.

Lemma wf_open c h v w : wf w → wf (open c h v w).1.
Proof.
  intros Hwf. unfold open.
  destruct (remoteConnections w !! h) as [r|]; [|by apply wf_connect].
  case_decide; [|by apply wf_connect].
  simpl. unfold registerClient.
  destruct (clientGroups w !! h) as [g|] eqn:Hg; [|done].
  destruct Hwf as [Hconn Hgrp]. split; simpl; [done|].
  intros h' g' [[<- <-]|[_ Hg']]%lookup_insert_Some; [|by eapply Hgrp].
  split; [apply set_add_nonempty|]. apply set_add_NoDup. by apply (Hgrp h).
Qed.

Lemma wf_close_remote h w :
  wf w →
  wf match remoteConnections w !! h with
     | Some r => set_remotes (alter ws_close r) w
     | None => w
     end.
Proof.
  intros [Hconn Hgrp]. destruct (remoteConnections w !! h) as [r|]; [|done].
  split; simpl; [|done].
  intros h' r' Hr'. rewrite host_of_alter by done. by apply Hconn.
Qed.

Lemma wf_close c h w : wf w → wf (close c h w).
Proof.
  intros Hwf.
  destruct (clientGroups w !! h) as [g|] eqn:Hg.
  - destruct (decide (set_delete c g = [])) as [Hd|Hd].
    + rewrite (close_last _ _ _ g) by done.
      destruct (wf_close_remote h w Hwf) as [Hconn Hgrp].
      split; [by destruct (remoteConnections w !! h)|].
      intros h' g' Hg'. apply (Hgrp h').
      assert (delete h (clientGroups w) !! h' = Some g') as Hdel
        by (by destruct (remoteConnections w !! h)).
      apply lookup_delete_Some in Hdel as [_ ?].
      by destruct (remoteConnections w !! h).
    + rewrite (close_others_left _ _ _ g) by done.
      destruct Hwf as [Hconn Hgrp]. split; simpl; [done|].
      intros h' g' [[<- <-]|[_ Hg']]%lookup_insert_Some; [|by eapply Hgrp].
      split; [done|]. apply NoDup_filter. by apply (Hgrp h).
  - rewrite close_no_group by done. by apply wf_close_remote.
Qed.

Lemma wf_step w e : wf w → wf (step w e).
Proof.
  intros Hwf.
  destruct e as [c h v|c h|c st|r|r|r|r msg b]; simpl.
  - by apply wf_open.
  - by apply wf_close.
  - done.
  - destruct Hwf as [Hconn Hgrp]. split; simpl; [|done].
    intros h r' Hr'. rewrite host_of_alter; [by apply Hconn|].
    intros u. by case_decide.
  - destruct Hwf as [Hconn Hgrp]. split; simpl; [|done].
    intros h r' Hr'. rewrite host_of_alter; [by apply Hconn|].
    intros u. by case_decide.
  - destruct (host_of w r) as [h|]; [|done].
    destruct Hwf as [Hconn Hgrp]. split; simpl; [|done].
    intros h' r' [_ Hr']%lookup_delete_Some.
    change (host_of (on_close h ?w') r') with (host_of w' r').
    rewrite host_of_alter by done. by apply Hconn.
  - destruct (host_of w r) as [h|]; [|done].
    by rewrite on_message_fan_out.
Qed.

(** Every world the server can reach satisfies the invariant. *)
Lemma wf_run es : wf (run init es).
Proof.
  unfold run. generalize wf_init. generalize init.
  induction es as [|e es IH]; intros w Hw; [done|].
  simpl. by apply IH, wf_step.
Qed.

(** *** Closing *)

Lemma close_twice c h w :
  close c h (close c h w) =
  match clientGroups (close c h w) !! h, remoteConnections (close c h w) !! h with
  | None, Some r => set_remotes (alter ws_close r) (close c h w)
  | _, _ => close c h w
  end.
Proof.
  pose proof (close_group_after c h w) as Hafter.
  destruct (clientGroups (close c h w) !! h) as [g|] eqn:Hg.
  - destruct Hafter. by apply (close_not_member _ _ _ g).
  - rewrite close_no_group by done.
    by destruct (remoteConnections (close c h w) !! h).
Qed.

(** C5 (as amended).  [close] never fails.  Closing a client that is not
    in the host's non-empty group changes nothing.  For a host without a
    group, [close] leaves both maps as they are: it does nothing when
    the host has no connection entry, and calls [close()] on the host's
    upstream socket once more when the entry is still there.  A second
    [close] of the same client is one of these cases.  The extra call is
    counted on the socket and leaves the ready state of a socket that is
    already closing or closed as it is. *)
Theorem close_is_repeatable :
  (∀ w c h g,
     clientGroups w !! h = Some g → g ≠ [] → c ∉ g → close c h w = w)
  ∧ (∀ w c h,
       clientGroups w !! h = None →
       close c h w =
       match remoteConnections w !! h with
       | Some r => set_remotes (alter ws_close r) w
       | None => w
       end)
  ∧ (∀ w c h,
       let w1 := close c h w in
       close c h w1 =
       match clientGroups w1 !! h, remoteConnections w1 !! h with
       | None, Some r => set_remotes (alter ws_close r) w1
       | _, _ => w1
       end)
  ∧ (∀ u,
       up_closeCalls (ws_close u) = S (up_closeCalls u)
       ∧ (up_state u = CLOSING ∨ up_state u = CLOSED →
          up_state (ws_close u) = up_state u)).
Proof.
  split_and!.
  - intros w c h g. apply close_not_member.
  - intros w c h. apply close_no_group.
  - intros w c h. apply close_twice.
  - intros u. split; [done|]. simpl. by intros [-> | ->].
Qed.

(** *** Concrete runs *)

(** C1 at the failing input: client 1 connects to a host, the upstream
    socket opens, client 2 connects to the same host.  Two upstream
    sockets have then been constructed for the host and both are live;
    the first was never asked to close, the connection entry points at
    the second, and the group holds client 2 alone. *)
Theorem second_client_on_open_host_gets_second_upstream :
  let host := "10.0.0.1:80" in
  let w := run init [Connection 1 host "1"; RemoteOpened 0;
                     Connection 2 host "1"] in
  length (remotes w) = 2
  ∧ length (live_upstreams host w) = 2
  ∧ readyState w 0 = OPEN
  ∧ closeCalls w 0 = 0
  ∧ remoteConnections w !! host = Some 1
  ∧ clientGroups w !! host = Some [2].
Proof. by vm_compute. Qed.

(** C4 at the failing input: client 1 connects to a host and closes, so
    the host's socket is [CLOSING], its group is gone and its connection
    entry is still there; client 2 then connects to the host.  [open]
    takes the branch that calls [registerClient] and returns the closing
    socket, and [group?.add] finds no group: no group is created and
    client 2 is in none. *)
Lemma open_on_closing_host_registers_nobody :
  let host := "10.0.0.1:80" in
  let w := run init [Connection 1 host "1"; ClientClosed 1 host] in
  remoteConnections w !! host = Some 0
  ∧ readyState w 0 = CLOSING
  ∧ (open 2 host "1" w).2 = 0
  ∧ clientGroups (open 2 host "1" w).1 = ∅.
Proof. by vm_compute. Qed.

(** C5 (as stated) fails: a second [close] of the host's last client
    calls [close()] on the upstream socket a second time. *)
Lemma second_close_calls_close_again :
  let host := "10.0.0.1:80" in
  let w := run init [Connection 1 host "1"] in
  closeCalls (close 1 host w) 0 = 1
  ∧ closeCalls (close 1 host (close 1 host w)) 0 = 2.
Proof. by vm_compute. Qed.

End RelayFacts.

(** ** The manager on its runtime *)

Section RuntimeFacts.
Import Relay.

(** On Node, [close] is the [close] of the event-loop model. *)
Lemma runtime_close_node c h w : Runtime.close Runtime.Node c h w = close c h w.
Proof. reflexivity. Qed.

Lemma runtime_open_absent accepts w c h v :
  remoteConnections w !! h = None →
  Runtime.open accepts c h v w
  = if accepts (up_url (new_upstream h v))
    then Some (connect c h v w) else None.
Proof. intros Hr. unfold Runtime.open. by rewrite Hr. Qed.


Lemma runtime_close_last rt c h w g r :
  clientGroups w !! h = Some g → set_delete c g = [] →
  remoteConnections w !! h = Some r →
  Runtime.close rt c h w
  = set_clientGroups (delete h) (Runtime.remote_close rt r w).
Proof.
  intros Hg Hd Hr. unfold Runtime.close. rewrite Hg. simpl.
  rewrite lookup_insert_eq, Hd, Hr. simpl.
  unfold Runtime.remote_close, readyState, host_of. simpl.
  destruct (Runtime.closes_inside rt _);
    [destruct (up_host <$> remotes w !! r)|];
    destruct w; simpl in *; unfold set_clientGroups, set_remotes, on_close,
      set_remoteConnections; simpl; f_equal; by rewrite delete_insert_eq.
Qed.




End RuntimeFacts.

(** ** Discovery registry *)

Section MdnsFacts.
Import Mdns.










End MdnsFacts.

(** ** The theorems at concrete inputs *)

(** [POST /proxy/10.0.0.1:80/v1/deleteEverything] on a network where no
    device answers. *)
Lemma proxy_unknown_operation_rejected_witness :
  Host.isValidHost "10.0.0.1:80" = true
  ∧ ("deleteEverything" ∉ Proxy.whitelist Proxy.POST)
  ∧ Proxy.handle (λ _, None) Some id Proxy.POST "10.0.0.1:80" "1"
                 "deleteEverything" "{}" []
    = ([], Proxy.Ok (Proxy.ErrorObject "Invalid endpoint: deleteEverything")).
Proof.
  assert (Hhost : Host.isValidHost "10.0.0.1:80" = true)
    by (vm_compute; reflexivity).
  assert (Hop : "deleteEverything" ∉ Proxy.whitelist Proxy.POST)
    by (apply (bool_decide_unpack _); vm_compute; exact I).
  split; [exact Hhost|]. split; [exact Hop|].
  destruct (proxy_unknown_operation_rejected (λ _, None) Some id Proxy.POST
              "10.0.0.1:80" "1" "deleteEverything" "{}" [] Hhost Hop)
    as (error & Hreply & ->).
  exact Hreply.
Defined.

(** [GET /proxy/10.0.0.1:80/v1/configuration] on a network where no
    device answers. *)
Lemma proxy_unreachable_is_reported_witness :
  Host.isValidHost "10.0.0.1:80" = true
  ∧ "configuration" ∈ Proxy.whitelist Proxy.GET
  ∧ Proxy.handle (λ _, None) Some id Proxy.GET "10.0.0.1:80" "1"
                 "configuration" "{}" []
    = ([Proxy.request_of id Proxy.GET "10.0.0.1:80" "1" "configuration" "{}"],
       Proxy.Ok (Proxy.ErrorObject
                   "Unreachable: http://10.0.0.1:80/v1/configuration")).
Proof.
  assert (Hhost : Host.isValidHost "10.0.0.1:80" = true)
    by (vm_compute; reflexivity).
  assert (Hop : "configuration" ∈ Proxy.whitelist Proxy.GET)
    by (apply (bool_decide_unpack _); vm_compute; exact I).
  split; [exact Hhost|]. split; [exact Hop|].
  exact (proj1 (proxy_unreachable_is_reported (λ _, None) Some id Proxy.GET
                  "10.0.0.1:80" "1" "configuration" "{}" [] Hhost Hop I)).
Defined.

(** A second client connects while the host's socket is still
    [CONNECTING]: it joins the first client's group. *)
Lemma open_reuses_connection_not_open_witness :
  let host := "10.0.0.1:80" in
  let w := Relay.run Relay.init [Relay.Connection 1 host "1"] in
  Relay.remoteConnections w !! host = Some 0
  ∧ Relay.readyState w 0 ≠ Relay.OPEN
  ∧ (Relay.open 2 host "1" w).2 = 0
  ∧ Relay.remotes (Relay.open 2 host "1" w).1 = Relay.remotes w
  ∧ Relay.clientGroups (Relay.open 2 host "1" w).1
    = <[host := [1; 2]]> (Relay.clientGroups w).
Proof.
  intros host w.
  assert (Hr : Relay.remoteConnections w !! host = Some 0) by reflexivity.
  assert (Hst : Relay.readyState w 0 ≠ Relay.OPEN)
    by (vm_compute; discriminate).
  split; [exact Hr|]. split; [exact Hst|].
  pose proof (open_reuses_connection_not_open w 2 host "1" 0 Hr Hst) as H.
  cbv zeta in H. destruct H as (H1 & H2 & _ & H3).
  split; [exact H1|]. split; [exact H2|]. exact (proj1 H3).
Defined.

(** A second client connects after the host's socket has opened. *)
Lemma open_replaces_open_connection_witness :
  let host := "10.0.0.1:80" in
  let w := Relay.run Relay.init
             [Relay.Connection 1 host "1"; Relay.RemoteOpened 0] in
  Relay.remoteConnections w !! host = Some 0
  ∧ Relay.readyState w 0 = Relay.OPEN
  ∧ (Relay.open 2 host "1" w).2 = 1
  ∧ Relay.clientGroups (Relay.open 2 host "1" w).1
    = <[host := [2]]> (Relay.clientGroups w)
  ∧ ¬ Relay.registered 1 (Relay.open 2 host "1" w).1.
Proof.
  intros host w.
  assert (Hr : Relay.remoteConnections w !! host = Some 0) by reflexivity.
  assert (Hst : Relay.readyState w 0 = Relay.OPEN) by reflexivity.
  split; [exact Hr|]. split; [exact Hst|].
  pose proof (open_replaces_open_connection w 2 host "1" 0 Hr Hst) as H.
  cbv zeta in H. destruct H as (H1 & _ & _ & _ & H2 & H3).
  split; [exact H1|]. split; [exact H2|].
  apply (H3 1); [lia|].
  intros h g Hne Hg.
  change (Relay.clientGroups w)
    with (<[host := [1]]> (∅ : gmap string (list nat))) in Hg.
  rewrite lookup_insert_ne, lookup_empty in Hg by done. discriminate.
Defined.


(** A client that never connected closes on a host with one client; and
    the host's only client closes twice. *)
Lemma close_is_repeatable_witness :
  let host := "10.0.0.1:80" in
  let w := Relay.run Relay.init [Relay.Connection 1 host "1"] in
  Relay.close 2 host w = w
  ∧ Relay.close 1 host (Relay.close 1 host w)
    = Relay.set_remotes (alter Relay.ws_close 0) (Relay.close 1 host w).
Proof.
  intros host w.
  destruct close_is_repeatable as (Hnot & _ & Htwice & _).
  split.
  - apply (Hnot w 2 host [1]); [reflexivity|discriminate|].
    intros Hin. apply list_elem_of_singleton in Hin. discriminate.
  - exact (Htwice w 1 host).
Defined.

(** * Further properties *)

(** ** Relay manager: reachable states, round trips, orphaned sockets *)

Section RelayMore.
Import Relay Lifecycle.

(** X1.  In every state the manager reaches from the start, a
    connection entry for a host holds a socket that was constructed for
    that host, and every client group is non-empty and without
    duplicates. *)
Theorem reachable_worlds_well_formed (es : list Event) :
  let w := run init es in
  (∀ host r, remoteConnections w !! host = Some r →
             ∃ u, remotes w !! r = Some u ∧ up_host u = host)
  ∧ (∀ host g, clientGroups w !! host = Some g → g ≠ [] ∧ NoDup g).
Proof.
  intros w. destruct (wf_run es) as [Hconn Hgrp]. fold w in Hconn, Hgrp.
  split; [|done]. intros host r Hr. apply Hconn in Hr.
  unfold host_of in Hr. destruct (remotes w !! r) as [u|]; [|done].
  simpl in Hr. exists u. split; [done|congruence].
Qed.

(** [open] returns an existing socket only when that one is not open,
    and a socket it has just constructed is [CONNECTING]. *)
Lemma open_socket_not_open
  (w : World) (client : nat) (host apiVersion : string) :
  readyState (open client host apiVersion w).1
             (open client host apiVersion w).2 ≠ OPEN.
Proof.
  assert (Hnew : readyState (connect client host apiVersion w).1
                            (connect client host apiVersion w).2 ≠ OPEN).
  { unfold readyState. simpl.
    by rewrite lookup_app_r, Nat.sub_diag. }
  unfold open. destruct (remoteConnections w !! host) as [r|]; [|done].
  case_decide; [|done]. simpl. unfold registerClient.
  by destruct (clientGroups w !! host).
Qed.

(** X2.  On a host the manager knows nothing about, [open] throws and
    stores nothing when [new WebSocket] rejects the URL.  When the URL
    is accepted, the client's [open], the same client's [close] and the
    socket's [close] event, delivered inside [close()] or after it,
    bring both maps back to what they were; what is left is one more
    socket in the heap, closed, on which [close()] was called once. *)
Theorem open_close_round_trip
  (rt : Runtime.Runtime) (accepts : string → bool)
  (w : World) (client : nat) (host apiVersion : string) :
  remoteConnections w !! host = None →
  clientGroups w !! host = None →
  let url := "ws://" +:+ host +:+ "/v" +:+ apiVersion +:+ "/ws" in
  if accepts url then
    ∃ w1 r,
      Runtime.open accepts client host apiVersion w = Some (w1, r)
      ∧ let w2 := Runtime.close rt client host w1 in
        let w3 := if Runtime.closes_inside rt CONNECTING then w2
                  else step w2 (RemoteClosed r) in
        remoteConnections w3 = remoteConnections w
        ∧ clientGroups w3 = clientGroups w
        ∧ remotes w3
          = remotes w ++
            [{| up_url := url; up_host := host; up_state := CLOSED;
                up_closeCalls := 1 |}]
        ∧ outbox w3 = outbox w
        ∧ clientState w3 = clientState w
  else Runtime.open accepts client host apiVersion w = None.
Proof.
  intros Hr Hg url. rewrite runtime_open_absent by done.
  change (up_url (new_upstream host apiVersion)) with url.
  destruct (accepts url); [|done].
  exists (connect client host apiVersion w).1, (length (remotes w)).
  split; [reflexivity|].
  set (w1 := (connect client host apiVersion w).1).
  assert (Hg1 : clientGroups w1 !! host = Some [client])
    by (subst w1; simpl; apply lookup_insert_eq).
  assert (Hr1 : remoteConnections w1 !! host = Some (length (remotes w)))
    by (subst w1; simpl; apply lookup_insert_eq).
  assert (Hd : set_delete client [client] = []).
  { unfold set_delete. rewrite filter_cons, decide_False by (by intros []).
    done. }
  assert (Halt : ∀ f, alter f (length (remotes w))
                        (remotes w ++ [new_upstream host apiVersion])
                      = remotes w ++ [f (new_upstream host apiVersion)]).
  { intros f. rewrite <- (Nat.add_0_r (length (remotes w))) at 1.
    by rewrite alter_app_r. }
  assert (Halt' : ∀ f u, alter f (length (remotes w)) (remotes w ++ [u])
                         = remotes w ++ [f u]).
  { intros f u. rewrite <- (Nat.add_0_r (length (remotes w))) at 1.
    by rewrite alter_app_r. }
  assert (Hst1 : readyState w1 (length (remotes w)) = CONNECTING).
  { unfold readyState. subst w1. simpl.
    by rewrite lookup_app_r, Nat.sub_diag. }
  assert (Hh1 : host_of w1 (length (remotes w)) = Some host).
  { unfold host_of. subst w1. simpl.
    by rewrite lookup_app_r, Nat.sub_diag. }
  rewrite (runtime_close_last _ _ _ _ [client] (length (remotes w)))
    by done.
  unfold Runtime.remote_close. rewrite Hst1, Hh1.
  destruct (Runtime.closes_inside rt CONNECTING); cbv zeta.
  - subst w1. simpl. rewrite !Halt'. simpl.
    split_and!; try done; by rewrite delete_insert_id.
  - subst w1. simpl. unfold host_of. simpl. rewrite Halt'.
    rewrite lookup_app_r, Nat.sub_diag by done. simpl.
    rewrite !Halt'. simpl.
    split_and!; try done; by rewrite delete_insert_id.
Qed.

Lemma closeCalls_alter f r r' w :
  (∀ u, up_closeCalls (f u) = up_closeCalls u) →
  closeCalls (set_remotes (alter f r) w) r' = closeCalls w r'.
Proof.
  intros Hf. unfold closeCalls. simpl. rewrite list_lookup_alter.
  case_decide; [subst|done]. destruct (remotes w !! r'); simpl; [|done].
  by rewrite Hf.
Qed.

Lemma closeCalls_alter_ne f r r' w :
  r ≠ r' → closeCalls (set_remotes (alter f r) w) r' = closeCalls w r'.
Proof.
  intros Hne. unfold closeCalls. simpl. by rewrite list_lookup_alter_ne.
Qed.

Lemma open_remoteConnections_cases c h v w :
  (open c h v w).1 = registerClient c h w
  ∨ (open c h v w).1 = (connect c h v w).1.
Proof.
  unfold open. destruct (remoteConnections w !! h); [case_decide|]; auto.
Qed.

Lemma registerClient_fields c h w :
  remoteConnections (registerClient c h w) = remoteConnections w
  ∧ remotes (registerClient c h w) = remotes w.
Proof. unfold registerClient. by destruct (clientGroups w !! h). Qed.

Lemma close_remoteConnections c h w :
  remoteConnections (close c h w) = remoteConnections w.
Proof.
  destruct (clientGroups w !! h) as [g|] eqn:Hg.
  - destruct (decide (set_delete c g = [])) as [Hd|Hd].
    + rewrite (close_last _ _ _ g) by done.
      by destruct (remoteConnections w !! h).
    + by rewrite (close_others_left _ _ _ g).
  - rewrite close_no_group by done.
    by destruct (remoteConnections w !! h).
Qed.

(** The only socket [close] can touch is the one stored under the
    host. *)
Lemma close_remotes c h w :
  remotes (close c h w) = remotes w
  ∨ ∃ r, remoteConnections w !! h = Some r
         ∧ remotes (close c h w) = alter ws_close r (remotes w).
Proof.
  destruct (clientGroups w !! h) as [g|] eqn:Hg.
  - destruct (decide (set_delete c g = [])) as [Hd|Hd].
    + rewrite (close_last _ _ _ g) by done.
      destruct (remoteConnections w !! h) as [r|]; [right|left]; eauto.
    + left. by rewrite (close_others_left _ _ _ g).
  - rewrite close_no_group by done.
    destruct (remoteConnections w !! h) as [r|]; [right|left]; eauto.
Qed.

Lemma step_unreferenced w e r :
  r < length (remotes w) → ¬ referenced w r →
  r < length (remotes (step w e))
  ∧ ¬ referenced (step w e) r
  ∧ closeCalls (step w e) r = closeCalls w r.
Proof.
  intros Hlt Hun.
  destruct e as [c h v|c h|c st|r'|r'|r'|r' msg b]; simpl.
  - destruct (open_remoteConnections_cases c h v w) as [-> | ->].
    + destruct (registerClient_fields c h w) as [Hrc Hrm].
      unfold referenced, closeCalls. by rewrite Hrc, Hrm.
    + simpl. split_and!.
      * rewrite length_app. lia.
      * intros [h' Hh']. simpl in Hh'.
        apply lookup_insert_Some in Hh' as [[_ <-]|[_ Hr]]; [lia|].
        apply Hun. by exists h'.
      * unfold closeCalls. simpl. by rewrite lookup_app_l.
  - set (w0 := set_clientState _ w).
    assert (Hun0 : ¬ referenced w0 r) by done.
    split_and!.
    + destruct (close_remotes c h w0) as [-> | (r0 & _ & ->)];
        [done|by rewrite length_alter].
    + unfold referenced. by rewrite close_remoteConnections.
    + unfold closeCalls.
      destruct (close_remotes c h w0) as [-> | (r0 & Hr0 & ->)]; [done|].
      rewrite list_lookup_alter_ne; [done|].
      intros ->. apply Hun0. by exists h.
  - done.
  - split_and!; [by rewrite length_alter|done|].
    apply closeCalls_alter. intros u. by case_decide.
  - split_and!; [by rewrite length_alter|done|].
    apply closeCalls_alter. intros u. by case_decide.
  - destruct (host_of w r') as [h|]; [|done]. simpl.
    split_and!; [by rewrite length_alter| |].
    + intros [h' Hh']. simpl in Hh'.
      apply lookup_delete_Some in Hh' as [_ Hr]. apply Hun. by exists h'.
    + change (closeCalls (on_close h ?w') r) with (closeCalls w' r).
      by apply closeCalls_alter.
  - destruct (host_of w r') as [h|]; [|done].
    by rewrite on_message_fan_out.
Qed.

Lemma run_unreferenced w es r :
  r < length (remotes w) → ¬ referenced w r →
  ¬ referenced (run w es) r ∧ closeCalls (run w es) r = closeCalls w r.
Proof.
  revert w. induction es as [|e es IH]; intros w Hlt Hun; [done|].
  simpl. destruct (step_unreferenced w e r Hlt Hun) as (Hlt' & Hun' & Hc).
  destruct (IH _ Hlt' Hun') as [? ?]. split; [done|congruence].
Qed.

(** X3.  A socket that no connection entry holds is never stored again
    and the manager never calls [close()] on it, whatever happens
    next.  In particular the socket that [open] replaces when it finds
    the host's socket [OPEN] is left as it is for good: only the device
    can end that connection. *)
Theorem replaced_socket_is_never_closed
  (w : World) (client : nat) (host apiVersion : string) (r : nat)
  (es : list Event) :
  wf w →
  remoteConnections w !! host = Some r →
  readyState w r = OPEN →
  let w' := run (open client host apiVersion w).1 es in
  ¬ referenced w' r ∧ closeCalls w' r = closeCalls w r.
Proof.
  intros [Hconn _] Hr Hst w'. subst w'.
  rewrite (open_replace _ _ _ _ r) by done.
  assert (Hlt : r < length (remotes w))
    by (by apply (readyState_in_heap _ _ OPEN)).
  assert (Hun : ¬ referenced (connect client host apiVersion w).1 r).
  { intros [h' Hh']. simpl in Hh'.
    apply lookup_insert_Some in Hh' as [[_ <-]|[Hne Hh']]; [lia|].
    apply Hconn in Hh', Hr. congruence. }
  destruct (run_unreferenced (connect client host apiVersion w).1 es r)
    as [Hun' Hc]; [simpl; rewrite length_app; lia|done|].
  split; [done|]. rewrite Hc. unfold closeCalls. simpl.
  by rewrite lookup_app_l.
Qed.

(** X4.  The [close] handler of a socket removes the entry of its host
    even when the entry holds another socket: that socket stays as it
    was, with its group, but the next [open] for the host finds no
    entry and constructs one more socket. *)
Theorem stale_close_event_drops_live_entry
  (w : World) (r r' : nat) (host : string) :
  host_of w r = Some host →
  remoteConnections w !! host = Some r' →
  r' ≠ r →
  let w' := step w (RemoteClosed r) in
  remoteConnections w' !! host = None
  ∧ readyState w' r' = readyState w r'
  ∧ closeCalls w' r' = closeCalls w r'
  ∧ clientGroups w' = clientGroups w
  ∧ ∀ c v, (open c host v w').2 = length (remotes w)
           ∧ length (remotes (open c host v w').1) = S (length (remotes w)).
Proof.
  intros Hh Hr Hne w'. subst w'. simpl. rewrite Hh.
  assert (Hnone : remoteConnections
                    (on_close host
                       (set_remotes (alter (ws_set_state CLOSED) r) w))
                  !! host = None)
    by (simpl; apply lookup_delete_eq).
  split_and!; try done.
  - unfold readyState. simpl. by rewrite list_lookup_alter_ne.
  - unfold closeCalls. simpl. by rewrite list_lookup_alter_ne.
  - intros c v. rewrite open_absent by done. simpl.
    rewrite length_app, length_alter. simpl. split; [done|lia].
Qed.

Lemma step_remotes_length w e :
  length (remotes (step w e))
  = length (remotes w)
  ∨ (is_connection e = true
     ∧ length (remotes (step w e)) = S (length (remotes w))).
Proof.
  destruct e as [c h v|c h|c st|r'|r'|r'|r' msg b]; simpl.
  - destruct (open_remoteConnections_cases c h v w) as [-> | ->].
    + left. by destruct (registerClient_fields c h w) as [_ ->].
    + right. simpl. rewrite length_app. simpl. split; [done|lia].
  - left. set (w0 := set_clientState _ w).
    destruct (close_remotes c h w0) as [-> | (r0 & _ & ->)];
      [done|by rewrite length_alter].
  - by left.
  - left. by rewrite length_alter.
  - left. by rewrite length_alter.
  - left. destruct (host_of w r'); [|done]. simpl. by rewrite length_alter.
  - left. destruct (host_of w r'); [|done]. by rewrite on_message_fan_out.
Qed.

Lemma step_host_of w e r h :
  host_of w r = Some h → host_of (step w e) r = Some h.
Proof.
  intros Hh.
  assert (Hlt : r < length (remotes w)).
  { unfold host_of in Hh. destruct (remotes w !! r) eqn:Hu; [|done].
    by eapply lookup_lt_Some. }
  destruct e as [c h' v|c h'|c st|r'|r'|r'|r' msg b]; simpl.
  - destruct (open_remoteConnections_cases c h' v w) as [-> | ->].
    + unfold host_of. by destruct (registerClient_fields c h' w) as [_ ->].
    + unfold host_of. simpl. by rewrite lookup_app_l.
  - set (w0 := set_clientState _ w). unfold host_of.
    destruct (close_remotes c h' w0) as [-> | (r0 & _ & ->)]; [done|].
    change (host_of (set_remotes (alter ws_close r0) w0) r = Some h).
    by rewrite host_of_alter.
  - done.
  - rewrite host_of_alter; [done|]. intros u. by case_decide.
  - rewrite host_of_alter; [done|]. intros u. by case_decide.
  - destruct (host_of w r') as [h0|]; [|done].
    change (host_of (on_close h0 ?w') r) with (host_of w' r).
    by rewrite host_of_alter.
  - destruct (host_of w r') as [h0|]; [|done].
    by rewrite on_message_fan_out.
Qed.

(** X5.  Sockets are constructed by client connections only, at most
    one for each, and they stay: along any run the heap grows by at most
    the number of connection events, and a socket keeps the host it was
    constructed for. *)
Theorem sockets_come_from_connections (w : World) (es : list Event) :
  length (remotes w) ≤ length (remotes (run w es))
  ∧ length (remotes (run w es))
    ≤ length (remotes w) + length (filter (λ e, is_connection e = true) es)
  ∧ ∀ r h, host_of w r = Some h → host_of (run w es) r = Some h.
Proof.
  revert w. induction es as [|e es IH]; intros w.
  - simpl. split_and!; [lia..|done].
  - simpl. destruct (IH (step w e)) as (IH1 & IH2 & IH3).
    rewrite filter_cons.
    destruct (step_remotes_length w e) as [Hl|[Hc Hl]].
    + split_and!; [lia| |by eauto using step_host_of].
      case_decide; simpl; lia.
    + rewrite decide_True by done.
      split_and!; [lia|simpl; lia|by eauto using step_host_of].
Qed.

End RelayMore.

(** ** Host validator and proxy routes: what gets through *)

Section ProxyMore.
Import Str Host Proxy.
Context {J : Type}.
Context (upstream : Request → option string).
Context (parse : string → option J) (stringify : J → string).

(** X6.  A host that [isValidHost] accepts is 9 to 21 characters long
    and holds nothing but decimal digits, dots and one kind of other
    character, the colon: no slash, at-sign, question mark, hash or
    blank can reach the URL the proxy builds from it. *)
Theorem accepted_host_is_digits_dots_colon (s : string) :
  isValidHost s = true →
  9 ≤ String.length s ≤ 21
  ∧ ∀ c, is_digit c = false → c ≠ "."%char → c ≠ ":"%char →
         free_of c s = true.
Proof.
  intros (a & b & c & d & p & -> & Ha & Hb & Hc & Hd & Hp)%isValidHost_bounded.
  apply decimal_digits_of in Ha as ([Ha ?] & _), Hb as ([Hb ?] & _),
    Hc as ([Hc ?] & _), Hd as ([Hd ?] & _), Hp as ([Hp ?] & _).
  split.
  - rewrite !str_length_app. simpl. lia.
  - intros x Hx Hdot Hcolon.
    assert (Hsep : ∀ y : ascii, x ≠ y → negb (Ascii.eqb y x) = true).
    { intros y Hy. apply negb_true_iff, Ascii.eqb_neq. congruence. }
    rewrite !free_of_app. cbn [free_of]. rewrite !Hsep by done.
    by rewrite !(digits_free_of x) by done.
Qed.

(** X7.  A request for a host that [isValidHost] rejects is answered
    with the error object [Invalid host: <host>], whatever the
    operation is, and nothing is sent upstream. *)
Theorem proxy_invalid_host_rejected
  (m : Method) (host apiVersion endpoint : string) (postData : J)
  (log : list Request) :
  isValidHost host = false →
  handle upstream parse stringify m host apiVersion endpoint postData log
  = (log, Ok (ErrorObject ("Invalid host: " +:+ host))).
Proof.
  intros Hh. destruct m; unfold handle, proxy_get, proxy_post;
    by rewrite Hh.
Qed.

(** X8.  Whatever the input, a handler sends at most one request, and it
    sends one only for a host that [isValidHost] accepts and an
    operation of the method's whitelist: the request then has the
    method of the route, the URL [http://<host>/v<version>/<operation>]
    and, for [POST], the serialised body. *)
Theorem proxy_requests_are_validated
  (m : Method) (host apiVersion endpoint : string) (postData : J)
  (log : list Request) :
  let log' :=
    (handle upstream parse stringify m host apiVersion endpoint postData log).1
  in
  log' = log
  ∨ (log' = log ++ [request_of stringify m host apiVersion endpoint postData]
     ∧ isValidHost host = true
     ∧ endpoint ∈ whitelist m).
Proof.
  intros log'. subst log'.
  destruct (isValidHost host) eqn:Hh;
    [|left; by rewrite proxy_invalid_host_rejected].
  destruct (decide (endpoint ∈ whitelist m)) as [He|He];
    [|left; by rewrite handle_rejects_endpoint].
  right. split; [|done].
  pose proof He as He'. apply includes_elem_of in He'.
  destruct m; unfold whitelist in He';
    unfold handle, proxy_get, proxy_post; rewrite Hh, He'; simpl;
    unfold try_catch, fetch_json, fetch_text, mbind, Net_bind, mret, Net_ret,
      request_of.
  - destruct (String.eqb endpoint "schema"); simpl;
      destruct (upstream _) as [body|]; try done.
    by destruct (parse body).
  - destruct (upstream _) as [body|]; try done.
    by destruct (parse body).
Qed.

(** X9.  On a valid host and a whitelisted operation, when the device
    answers, the reply is the answer itself: the text as it came for
    [GET schema], and the decoded JSON value for every other operation;
    one request has been sent. *)
Theorem proxy_relays_answer
  (m : Method) (host apiVersion endpoint : string) (postData : J)
  (log : list Request) (body : string) :
  isValidHost host = true →
  endpoint ∈ whitelist m →
  upstream (request_of stringify m host apiVersion endpoint postData)
  = Some body →
  handle upstream parse stringify m host apiVersion endpoint postData log
  = (log ++ [request_of stringify m host apiVersion endpoint postData],
     if decodes m endpoint
     then match parse body with
          | Some j => Ok (JsonBody j)
          | None => Ok (ErrorObject
                          ("Unreachable: "
                           +:+ proxy_url host apiVersion endpoint))
          end
     else Ok (TextBody body)).
Proof.
  intros Hh He%includes_elem_of Hup. unfold request_of in Hup.
  destruct m; unfold whitelist in He;
    unfold handle, proxy_get, proxy_post; rewrite Hh, He; simpl;
    unfold try_catch, fetch_json, fetch_text, mbind, Net_bind, mret, Net_ret,
      request_of.
  - destruct (String.eqb endpoint "schema"); simpl; rewrite Hup; [done|].
    by destruct (parse body).
  - rewrite Hup. by destruct (parse body).
Qed.

End ProxyMore.

(** ** Discovery registry: what a response can and cannot do *)

Section MdnsMore.
Import Str Mdns Registry.

(** A fold of handlers that fail exactly on the elements marked [bad]
    and keep [P] otherwise. *)
Lemma fold_handler_inv {S A : Type} (P : S → Prop) (bad : A → bool)
  (f : S → A → option S) (l : list A) (s : S) :
  (∀ s a, P s →
          if bad a then f s a = None else ∃ s', f s a = Some s' ∧ P s') →
  P s →
  if existsb bad l then fold_handler f s l = None
  else ∃ s', fold_handler f s l = Some s' ∧ P s'.
Proof.
  intros Hf. revert s. induction l as [|a l IH]; intros s Hs; simpl.
  - by exists s.
  - specialize (Hf s a Hs). destruct (bad a); simpl.
    + by rewrite Hf.
    + destruct Hf as (s' & -> & Hs'). by apply IH.
Qed.

Lemma on_answer_kept before services answer :
  kept before services →
  if match ans_data answer with
     | PTR h =>
         String.eqb (ans_name answer) "_homedeck._tcp.local" && inherited h
     | _ => false
     end
  then on_answer services answer = None
  else ∃ services', on_answer services answer = Some services'
                    ∧ kept before services'.
Proof.
  intros Hkept. pose proof Hkept as (Hf & Hc & Hk). unfold on_answer.
  destruct (ans_data answer) as [h| | | |]; try by eauto.
  destruct (String.eqb _ _); simpl; [|by eauto].
  destruct (services !! h) as [d0|] eqn:Hd0.
  - rewrite (Hc h) by eauto. eexists. split; [done|]. split_and!.
    + intros k d. rewrite lookup_alter. case_decide; [subst|apply Hf].
      rewrite Hd0. simpl. by intros [= <-].
    + intros k [d Hd]. apply Hc. rewrite lookup_alter in Hd.
      case_decide; [subst; by eauto|by eauto].
    + intros k Hb. rewrite lookup_alter. apply Hk in Hb.
      case_decide; [subst; rewrite Hd0|]; by eauto.
  - destruct (inherited h) eqn:Hh; [done|].
    eexists. split; [done|]. split_and!.
    + intros k d. rewrite lookup_alter. case_decide; [subst|].
      * rewrite lookup_insert_eq. simpl. by intros [= <-].
      * rewrite lookup_insert_ne by done. apply Hf.
    + intros k [d Hd]. rewrite lookup_alter in Hd.
      case_decide; [by subst|].
      rewrite lookup_insert_ne in Hd by done. apply Hc. by eauto.
    + intros k Hb. rewrite lookup_alter. apply Hk in Hb.
      case_decide; [subst; rewrite lookup_insert_eq; by eauto|].
      by rewrite lookup_insert_ne.
Qed.

Lemma alter_kept before services (f : MdnsDevice → MdnsDevice) k0 :
  (∀ d, name (f d) = name d) →
  kept before services → kept before (alter f k0 services).
Proof.
  intros Hname (Hf & Hc & Hk). split_and!.
  - intros k d. rewrite lookup_alter. case_decide; [subst|apply Hf].
    destruct (services !! k) as [d0|] eqn:Hd0; [|done].
    simpl. intros [= <-]. rewrite Hname. by apply Hf.
  - intros k [d Hd]. apply Hc. rewrite lookup_alter in Hd.
    case_decide; [subst|by eauto].
    destruct (services !! k); [by eauto|done].
  - intros k Hb. apply Hk in Hb as [d Hd]. rewrite lookup_alter.
    case_decide; [subst; rewrite Hd|]; by eauto.
Qed.

Lemma on_additional_kept before services answer :
  kept before services →
  if match ans_data answer with
     | SRV _ _ | TXT _ => inherited (ans_name answer)
     | _ => false
     end
  then on_additional services answer = None
  else ∃ services', on_additional services answer = Some services'
                    ∧ kept before services'.
Proof.
  intros Hkept. pose proof Hkept as (Hf & Hc & Hk). unfold on_additional.
  destruct (ans_data answer) as [h|target p|data|txtData|]; try by eauto.
  - destruct (services !! ans_name answer) eqn:Hs.
    + rewrite (Hc (ans_name answer)) by eauto.
      eexists. split; [done|]. by apply alter_kept.
    + destruct (inherited (ans_name answer)); by eauto.
  - eexists. split; [done|]. split_and!.
    + intros k d. rewrite lookup_fmap.
      destruct (services !! k) as [d0|] eqn:Hd0; [|done].
      simpl. intros [= <-]. case_decide; simpl; by apply Hf.
    + intros k [d Hd]. apply Hc. rewrite lookup_fmap in Hd.
      destruct (services !! k); [by eauto|done].
    + intros k Hb. apply Hk in Hb as [d Hd]. rewrite lookup_fmap, Hd.
      by eauto.
  - destruct (services !! ans_name answer) eqn:Hs.
    + rewrite (Hc (ans_name answer)) by eauto.
      eexists. split; [done|]. by apply alter_kept.
    + destruct (inherited (ans_name answer)); by eauto.
Qed.

(** X10.  On a registry in which every record is filed under the name
    it carries and no name is an inherited one (the empty registry is
    such a registry), a response that announces, locates or describes a
    service under an inherited name (constructor, __proto__, ...) makes
    the handler throw or write to an object of the prototype chain;
    every other response is handled, removes no record, and leaves
    every record filed under its own name and no record under an
    inherited name. *)
Theorem response_keeps_records
  (services : gmap string MdnsDevice) (response : Packet) :
  filed services →
  clean services →
  if names_inherited response then on_response services response = None
  else ∃ services',
         on_response services response = Some services'
         ∧ filed services' ∧ clean services'
         ∧ ∀ k, is_Some (services !! k) → is_Some (services' !! k).
Proof.
  intros Hf Hc. unfold names_inherited, on_response.
  assert (Hkept : kept services services) by done.
  pose proof (fold_handler_inv (kept services) _ on_answer
                (answers response) services
                (λ s a, on_answer_kept services s a) Hkept) as Hans.
  destruct (existsb _ (answers response)); simpl.
  - by rewrite Hans.
  - destruct Hans as (s1 & -> & H1).
    pose proof (fold_handler_inv (kept services) _ on_additional
                  (additionals response) s1
                  (λ s a, on_additional_kept services s a) H1) as Hadd.
    destruct (existsb _ (additionals response)); [done|].
    destruct Hadd as (s2 & -> & ? & ? & ?). by exists s2.
Qed.

Local Ltac settle :=
  cbn [name host address port properties set_name set_location set_address
       set_properties empty_device];
  rewrite ?decide_True by done; rewrite ?decide_False by done.

Lemma on_answer_name_new (d : Announcement) :
  inherited (an_instance d) = false →
  on_answer ∅ (frag_name d)
  = Some {[ an_instance d := set_name (an_instance d) empty_device ]}.
Proof.
  intros Hd. unfold on_answer. simpl. rewrite lookup_empty, Hd.
  by rewrite insert_empty, alter_singleton_eq.
Qed.

Lemma on_answer_name_known (d : Announcement) (r : MdnsDevice) :
  on_answer {[ an_instance d := r ]} (frag_name d)
  = Some {[ an_instance d := set_name (an_instance d) r ]}.
Proof.
  unfold on_answer. simpl. rewrite lookup_singleton_eq.
  by rewrite alter_singleton_eq.
Qed.

Lemma on_additional_location (d : Announcement) (r : MdnsDevice) :
  on_additional {[ an_instance d := r ]} (frag_location d)
  = Some {[ an_instance d := set_location (an_target d) (an_port d) r ]}.
Proof.
  unfold on_additional. simpl.
  by rewrite lookup_singleton_eq, alter_singleton_eq.
Qed.

Lemma on_additional_attributes (d : Announcement) (r : MdnsDevice) :
  on_additional {[ an_instance d := r ]} (frag_attributes d)
  = Some {[ an_instance d := set_properties (parse_txt (an_txt d)) r ]}.
Proof.
  unfold on_additional. simpl.
  by rewrite lookup_singleton_eq, alter_singleton_eq.
Qed.

Lemma on_additional_address (d : Announcement) (r : MdnsDevice) :
  on_additional {[ an_instance d := r ]} (frag_address d)
  = Some {[ an_instance d :=
              if decide (host r = Some (an_target d))
              then set_address (an_address d) r else r ]}.
Proof. unfold on_additional. simpl. by rewrite map_fmap_singleton. Qed.

Local Ltac respond Hd :=
  unfold on_response, announce;
  repeat (cbn [answers additionals fold_handler mbind option_bind];
          first [ rewrite (on_answer_name_new _ Hd)
                | rewrite on_answer_name_known
                | rewrite on_additional_location
                | rewrite on_additional_attributes
                | rewrite on_additional_address ];
          settle);
  cbn [answers additionals fold_handler mbind option_bind].

(** X11.  A response that carries the four records of a device whose
    name is not an inherited one, the pointer among the answers and the
    other three among the additionals in any order: one pass gives the
    completed record when the location comes before the address, and
    the record without the address when the address comes first; the
    same response once more gives the completed record in every
    order. *)
Theorem announcement_completes_on_repeat
  (d : Announcement) (adds : list Answer) :
  inherited (an_instance d) = false →
  adds ≡ₚ [frag_location d; frag_address d; frag_attributes d] →
  on_response ∅ (announce d adds)
  = Some {[ an_instance d :=
              if location_before_address adds
              then completed d else without_address d ]}
  ∧ (on_response ∅ (announce d adds)
       ≫= λ once, on_response once (announce d adds))
    = Some {[ an_instance d := completed d ]}.
Proof.
  intros Hd Hp.
  symmetry in Hp. apply permutations_Permutation in Hp.
  remember (frag_location d) as L eqn:HL.
  remember (frag_address d) as A eqn:HA.
  remember (frag_attributes d) as T eqn:HT.
  simpl in Hp.
  repeat (apply elem_of_cons in Hp as [->|Hp]); [..|by apply elem_of_nil in Hp];
    subst L A T; cbn [location_before_address ans_data frag_location
                      frag_address frag_attributes];
    split; by respond Hd.
Qed.

(** X12.  How one TXT entry is read, for a key other than [__proto__].
    An entry without [=] sets its whole text as a flag; [key=value]
    sets the key to the value; [key=] sets the key as a flag, the empty
    value counting as absent; and of [key=value=rest] only [value] is
    kept: the text from the second [=] on is lost.  An entry for the key
    [__proto__] sets nothing. *)
Theorem txt_entry_shapes
  (txtObject : gmap string TxtValue) (key value rest : string) :
  free_of "=" key = true →
  free_of "=" value = true →
  value ≠ "" →
  key ≠ "__proto__" →
  txt_entry txtObject key = <[key := TxtTrue]> txtObject
  ∧ txt_entry txtObject (key +:+ "=" +:+ value)
    = <[key := TxtString value]> txtObject
  ∧ txt_entry txtObject (key +:+ "=") = <[key := TxtTrue]> txtObject
  ∧ txt_entry txtObject (key +:+ "=" +:+ value +:+ "=" +:+ rest)
    = <[key := TxtString value]> txtObject
  ∧ txt_entry txtObject "__proto__" = txtObject
  ∧ txt_entry txtObject ("__proto__" +:+ "=" +:+ value +:+ "=" +:+ rest)
    = txtObject.
Proof.
  intros Hk Hv Hne Hp. unfold txt_entry.
  change (key +:+ "=" +:+ value +:+ "=" +:+ rest)
    with (key +:+ String "=" (value +:+ String "=" rest)).
  change ("__proto__" +:+ "=" +:+ value +:+ "=" +:+ rest)
    with ("__proto__" +:+ String "=" (value +:+ String "=" rest)).
  change (key +:+ "=" +:+ value) with (key +:+ String "=" value).
  change (key +:+ "=") with (key +:+ String "=" "").
  rewrite !split_app_sep, !split_free by done.
  change (split "=" "") with [""].
  apply String.eqb_neq in Hp. rewrite Hp, String.eqb_refl.
  by destruct value.
Qed.

End MdnsMore.

(** ** Front door: what the upgrade pattern captures *)

Section FrontDoorFacts.
Import Str FrontDoor.

Lemma str_app_inv_tail (s1 s2 t : string) : s1 +:+ t = s2 +:+ t → s1 = s2.
Proof.
  revert s2. induction s1 as [|c s1 IH]; intros [|c2 s2] H.
  - done.
  - apply (f_equal String.length) in H.
    rewrite str_app_nil_l, str_length_app in H. simpl in H. lia.
  - apply (f_equal String.length) in H.
    rewrite str_app_nil_l, str_length_app in H. simpl in H. lia.
  - rewrite !str_app_cons in H. injection H as -> H. f_equal. by apply IH.
Qed.

Lemma all_dot_app (s t : string) :
  all_dot (s +:+ t) = all_dot s && all_dot t.
Proof.
  induction s as [|c s IH]; [done|].
  rewrite str_app_cons. simpl. by rewrite IH, andb_assoc.
Qed.

Lemma strip_prefix_Some (p s r : string) :
  strip_prefix p s = Some r ↔ s = p +:+ r.
Proof.
  revert s. induction p as [|a p IH]; intros s; simpl.
  - rewrite str_app_nil_l. split; congruence.
  - destruct s as [|b s]; [by rewrite str_app_cons|].
    rewrite str_app_cons. destruct (Ascii.eqb a b) eqn:Hab.
    + apply Ascii.eqb_eq in Hab as ->. rewrite IH. split; congruence.
    + apply Ascii.eqb_neq in Hab. split; [done|congruence].
Qed.

Lemma greedy_dots_elem (s m r : string) :
  (m, r) ∈ greedy_dots s → m ≠ "" ∧ all_dot m = true ∧ s = m +:+ r.
Proof.
  revert m r. induction s as [|c s IH]; intros m r; simpl.
  - by intros ?%elem_of_nil.
  - destruct (dot c) eqn:Hc; [|by intros ?%elem_of_nil].
    intros [Hin|Hin]%elem_of_app.
    + apply list_elem_of_fmap in Hin as ([m' r'] & [= -> ->] & Hin).
      apply IH in Hin as (_ & Hd & ->). simpl. by rewrite Hc, Hd.
    + apply list_elem_of_singleton in Hin as [= -> ->]. simpl.
      by rewrite Hc.
Qed.

Lemma greedy_dots_app (h t : string) :
  h ≠ "" → all_dot h = true →
  ∃ shorter,
    greedy_dots (h +:+ t)
    = map (λ m, (h +:+ m.1, m.2)) (greedy_dots t) ++ (h, t) :: shorter.
Proof.
  induction h as [|c h IH]; [done|]. intros _ Hd. simpl in Hd.
  apply andb_true_iff in Hd as [Hc Hd].
  rewrite str_app_cons. simpl. rewrite Hc.
  destruct h as [|c' h].
  - exists []. by rewrite str_app_nil_l.
  - destruct IH as [shorter ->]; [done..|].
    exists (map (λ m, (String c m.1, m.2)) shorter ++ [(String c "", String c' h +:+ t)]).
    rewrite map_app, map_map. simpl. by rewrite <- List.app_assoc.
Qed.

Lemma greedy_dots_complete (m r : string) :
  m ≠ "" → all_dot m = true → (m, r) ∈ greedy_dots (m +:+ r).
Proof.
  intros Hm Hd. destruct (greedy_dots_app m r Hm Hd) as [shorter ->].
  apply elem_of_app. right. apply elem_of_cons. by left.
Qed.

Lemma first_match_Some {A B} (k : A → option B) (alts : list A) (y : B) :
  first_match k alts = Some y → ∃ x, x ∈ alts ∧ k x = Some y.
Proof.
  induction alts as [|x alts IH]; simpl; [done|].
  destruct (k x) as [y'|] eqn:Hx.
  - intros [= <-]. exists x. split; [by left|done].
  - intros (x' & ? & ?)%IH. exists x'. split; [by right|done].
Qed.

Lemma first_match_cons {A B} (k : A → option B) (x : A) (l : list A) :
  first_match k (x :: l)
  = match k x with
    | Some y => Some y
    | None => first_match k l
    end.
Proof. done. Qed.

Lemma first_match_app {A B} (k : A → option B) (l1 l2 : list A) :
  first_match k (l1 ++ l2)
  = match first_match k l1 with
    | Some y => Some y
    | None => first_match k l2
    end.
Proof.
  induction l1 as [|x l1 IH]; simpl; [done|]. by destruct (k x).
Qed.

Lemma first_match_None {A B} (k : A → option B) (alts : list A) :
  (∀ x, x ∈ alts → k x = None) → first_match k alts = None.
Proof.
  induction alts as [|x alts IH]; intros H; simpl; [done|].
  rewrite (H x) by (by left). apply IH. intros x' ?. apply H. by right.
Qed.

Lemma first_match_is_Some {A B} (k : A → option B) (alts : list A) (x : A) :
  x ∈ alts → is_Some (k x) → is_Some (first_match k alts).
Proof.
  induction alts as [|x' alts IH]; simpl; [by intros ?%elem_of_nil|].
  intros [->|Hin]%elem_of_cons [y Hy].
  - rewrite Hy. by eauto.
  - destruct (k x'); [by eauto|]. apply IH; by eauto.
Qed.

(** The second group: all of the input up to a final [/ws]. *)
Lemma version_match (h rest h' a : string) :
  first_match
    (λ m2 : string * string,
       if String.eqb m2.2 "/ws" then Some (h, m2.1) else None)
    (greedy_dots rest) = Some (h', a)
  ↔ h' = h ∧ rest = a +:+ "/ws" ∧ a ≠ "" ∧ all_dot a = true.
Proof.
  assert (Hsound : ∀ h' a,
    first_match
      (λ m2 : string * string,
         if String.eqb m2.2 "/ws" then Some (h, m2.1) else None)
      (greedy_dots rest) = Some (h', a)
    → h' = h ∧ rest = a +:+ "/ws" ∧ a ≠ "" ∧ all_dot a = true).
  { clear h' a. intros h' a ([m r] & Hin & Hk)%first_match_Some. simpl in Hk.
    destruct (String.eqb r "/ws") eqn:Hr; [|done].
    apply String.eqb_eq in Hr as ->. injection Hk as <- <-.
    apply greedy_dots_elem in Hin as (? & ? & ->). done. }
  split; [apply Hsound|].
  intros (-> & -> & Ha & Hd).
  destruct (first_match_is_Some
              (λ m2 : string * string,
                 if String.eqb m2.2 "/ws" then Some (h, m2.1) else None)
              (greedy_dots (a +:+ "/ws")) (a, "/ws")) as [[h2 a2] H2].
  - by apply greedy_dots_complete.
  - simpl. by eauto.
  - rewrite H2. apply Hsound in H2 as (-> & Heq & _).
    by apply str_app_inv_tail in Heq as ->.
Qed.

(** What the continuation of the first group makes of an alternative. *)
Lemma host_alternative (m r h a : string) :
  (rest ← strip_prefix "/v" r;
   first_match
     (λ m2 : string * string,
        if String.eqb m2.2 "/ws" then Some (m, m2.1) else None)
     (greedy_dots rest)) = Some (h, a)
  ↔ h = m ∧ r = "/v" +:+ a +:+ "/ws" ∧ a ≠ "" ∧ all_dot a = true.
Proof.
  destruct (strip_prefix "/v" r) as [rest|] eqn:Hs; simpl.
  - apply strip_prefix_Some in Hs as ->. rewrite version_match.
    split; [by intros (-> & -> & ? & ?)|].
    intros (-> & Heq & ? & ?). by apply String.app_inj in Heq as ->.
  - split; [done|]. intros (_ & -> & _). simpl in Hs. done.
Qed.

Lemma upgrade_match_sound (pathname host apiVersion : string) :
  upgrade_match pathname = Some (host, apiVersion) →
  pathname = "/proxy/" +:+ host +:+ "/v" +:+ apiVersion +:+ "/ws"
  ∧ host ≠ "" ∧ apiVersion ≠ ""
  ∧ all_dot host = true ∧ all_dot apiVersion = true.
Proof.
  intros H. unfold upgrade_match in H.
  destruct (strip_prefix "/proxy/" pathname) as [body|] eqn:Hp; [|done].
  apply strip_prefix_Some in Hp as ->.
  unfold mbind, option_bind in H. cbv beta iota in H.
  apply first_match_Some in H as ([m r] & Hin & Hk).
  cbn [fst snd] in Hk.
  apply host_alternative in Hk as (-> & -> & ? & ?).
  apply greedy_dots_elem in Hin as (? & ? & ->). done.
Qed.

(** X13.  The upgrade pattern matches exactly the paths
    [/proxy/<host>/v<version>/ws] with a non-empty host and a non-empty
    version free of line breaks: what it captures makes up the path,
    and a path that can be read this way is never refused.  The host is
    not checked any further. *)
Theorem upgrade_match_sound_and_complete (pathname : string) :
  (∀ host apiVersion,
     upgrade_match pathname = Some (host, apiVersion) →
     pathname = "/proxy/" +:+ host +:+ "/v" +:+ apiVersion +:+ "/ws"
     ∧ host ≠ "" ∧ apiVersion ≠ ""
     ∧ all_dot host = true ∧ all_dot apiVersion = true)
  ∧ (∀ host apiVersion,
       pathname = "/proxy/" +:+ host +:+ "/v" +:+ apiVersion +:+ "/ws" →
       host ≠ "" → apiVersion ≠ "" →
       all_dot host = true → all_dot apiVersion = true →
       on_upgrade pathname ≠ Destroy).
Proof.
  split; [intros host apiVersion; apply upgrade_match_sound|].
  intros host apiVersion -> Hh Ha Hdh Hda. unfold on_upgrade, upgrade_match.
  assert (Hp : strip_prefix "/proxy/"
                 ("/proxy/" +:+ host +:+ "/v" +:+ apiVersion +:+ "/ws")
               = Some (host +:+ "/v" +:+ apiVersion +:+ "/ws"))
    by (by apply strip_prefix_Some).
  rewrite Hp. unfold mbind at 1, option_bind at 1. cbv beta iota.
  match goal with
  | |- context [first_match ?k ?l] =>
      destruct (first_match_is_Some k l
                  (host, "/v" +:+ apiVersion +:+ "/ws")) as [[h a] ->]
  end; [by apply greedy_dots_complete| |done].
  exists (host, apiVersion). cbn [fst snd]. by apply host_alternative.
Qed.

Lemma upgrade_match_body (body : string) :
  upgrade_match ("/proxy/" +:+ body)
  = first_match
      (λ m1 : string * string,
         rest ← strip_prefix "/v" m1.2;
         first_match
           (λ m2 : string * string,
              if String.eqb m2.2 "/ws" then Some (m1.1, m2.1) else None)
           (greedy_dots rest))
      (greedy_dots body).
Proof.
  unfold upgrade_match.
  assert (Hp : strip_prefix "/proxy/" ("/proxy/" +:+ body) = Some body)
    by (by apply strip_prefix_Some).
  by rewrite Hp.
Qed.

(** A version without a slash leaves no second place to split at. *)
Lemma no_split_inside_version (a m x : string) :
  free_of "/" a = true →
  a +:+ "/ws" = m +:+ "/v" +:+ x → False.
Proof.
  revert m. induction a as [|y a IH]; intros m Ha H.
  - rewrite str_app_nil_l in H.
    change ("/v" +:+ x) with (String "/" (String "v" x)) in H.
    destruct m as [|? [|? [|? [|? m]]]];
      rewrite ?str_app_cons, ?str_app_nil_l in H; discriminate.
  - simpl in Ha. apply andb_true_iff in Ha as [Hy Ha].
    apply negb_true_iff, Ascii.eqb_neq in Hy.
    rewrite str_app_cons in H. destruct m as [|c m].
    + rewrite str_app_nil_l in H.
      change ("/v" +:+ x) with (String "/" (String "v" x)) in H. congruence.
    + rewrite str_app_cons in H. injection H as _ H. by apply (IH m).
Qed.

Lemma no_split_after_host (a m x : string) :
  free_of "/" a = true → m ≠ "" →
  "/v" +:+ a +:+ "/ws" = m +:+ "/v" +:+ x → False.
Proof.
  intros Ha Hm H.
  change ("/v" +:+ a +:+ "/ws") with (String "/" (String "v" (a +:+ "/ws")))
    in H.
  destruct m as [|c [|c' m]]; [done| |].
  - rewrite str_app_cons, str_app_nil_l in H.
    change ("/v" +:+ x) with (String "/" (String "v" x)) in H. discriminate.
  - rewrite !str_app_cons in H. injection H as _ _ H.
    by apply (no_split_inside_version a m x).
Qed.

Lemma front_door_round_trip (host apiVersion : string) :
  host ≠ "" → apiVersion ≠ "" →
  all_dot host = true → all_dot apiVersion = true →
  free_of "/" apiVersion = true →
  on_upgrade ("/proxy/" +:+ host +:+ "/v" +:+ apiVersion +:+ "/ws")
  = HandleUpgrade host apiVersion.
Proof.
  intros Hh Ha Hdh Hda Hfree. unfold on_upgrade.
  rewrite upgrade_match_body.
  destruct (greedy_dots_app host ("/v" +:+ apiVersion +:+ "/ws") Hh Hdh)
    as [shorter ->].
  rewrite first_match_app, first_match_None.
  - rewrite first_match_cons. cbn [fst snd].
    assert (Hk : (rest ← strip_prefix "/v" ("/v" +:+ apiVersion +:+ "/ws");
                  first_match
                    (λ m2 : string * string,
                       if String.eqb m2.2 "/ws" then Some (host, m2.1)
                       else None)
                    (greedy_dots rest)) = Some (host, apiVersion))
      by (by apply host_alternative).
    by rewrite Hk.
  - intros [h r] ([m r'] & [= -> ->] & Hin)%list_elem_of_fmap.
    apply greedy_dots_elem in Hin as (Hm & _ & Heq). cbn [fst snd].
    match goal with
    | |- ?k = None => destruct k as [[h2 a2]|] eqn:Hk; [|done]
    end.
    apply host_alternative in Hk as (_ & -> & _).
    by destruct (no_split_after_host apiVersion m (a2 +:+ "/ws") Hfree Hm).
Qed.

(** X14.  Reading back a path the client built: for a non-empty host
    and a non-empty version without line breaks, and without a slash in
    the version, the pattern captures exactly that host and that
    version from [/proxy/<host>/v<version>/ws], whatever the host
    contains. *)
Theorem upgrade_round_trip (host apiVersion : string) :
  host ≠ "" → apiVersion ≠ "" →
  all_dot host = true → all_dot apiVersion = true →
  free_of "/" apiVersion = true →
  on_upgrade ("/proxy/" +:+ host +:+ "/v" +:+ apiVersion +:+ "/ws")
  = HandleUpgrade host apiVersion.
Proof. apply front_door_round_trip. Qed.

Lemma str_app_longer (s1 t1 s2 t2 : string) :
  s1 +:+ t1 = s2 +:+ t2 → String.length s1 < String.length s2 →
  ∃ m, m ≠ "" ∧ s2 = s1 +:+ m ∧ t1 = m +:+ t2.
Proof.
  revert s2. induction s1 as [|c s1 IH]; intros s2 H Hlen.
  - rewrite str_app_nil_l in H. exists s2.
    split; [by destruct s2; simpl in Hlen; [lia|]|done].
  - destruct s2 as [|c2 s2]; [simpl in Hlen; lia|].
    rewrite !str_app_cons in H. injection H as -> H. simpl in Hlen.
    destruct (IH s2 H) as (m & ? & -> & ->); [lia|].
    exists m. by rewrite str_app_cons.
Qed.

(** X15.  When a path can be split in several ways, the pattern takes
    the longest host: no other reading of the path as
    [/proxy/<host>/v<version>/ws] has a longer host than the one that is
    captured.  (So a version that itself contains [/v] moves into the
    host.) *)
Theorem upgrade_host_is_longest
  (pathname host apiVersion host' apiVersion' : string) :
  upgrade_match pathname = Some (host, apiVersion) →
  pathname = "/proxy/" +:+ host' +:+ "/v" +:+ apiVersion' +:+ "/ws" →
  host' ≠ "" → apiVersion' ≠ "" →
  all_dot host' = true → all_dot apiVersion' = true →
  String.length host' ≤ String.length host.
Proof.
  intros Hm Hpath Hh' Ha' Hdh' Hda'.
  destruct (upgrade_match_sound pathname _ _ Hm)
    as (Hpath0 & Hh & Ha & Hdh & Hda).
  destruct (decide (String.length host' ≤ String.length host)) as [|Hlt];
    [done|exfalso].
  rewrite Hpath0 in Hpath. apply String.app_inj in Hpath.
  apply str_app_longer in Hpath as (m & Hmne & -> & Ht); [|lia].
  rewrite Hpath0, upgrade_match_body in Hm.
  destruct (greedy_dots_app host ("/v" +:+ apiVersion +:+ "/ws") Hh Hdh)
    as [shorter Hg].
  rewrite Hg, first_match_app in Hm.
  rewrite all_dot_app, Hdh in Hdh'. simpl in Hdh'.
  match type of Hm with
  | context [first_match ?k (map ?f ?l)] =>
      destruct (first_match_is_Some k (map f l) (f (m, "/v" +:+ apiVersion' +:+ "/ws")))
        as [[h0 a0] H0]
  end.
  - apply list_elem_of_fmap. eexists. split; [done|].
    rewrite Ht. by apply greedy_dots_complete.
  - exists (host +:+ m, apiVersion'). cbn [fst snd]. by apply host_alternative.
  - rewrite H0 in Hm. injection Hm as -> ->.
    apply first_match_Some in H0 as ([h r] & Hin & Hk).
    apply list_elem_of_fmap in Hin as ([m0 r0] & [= -> ->] & Hin).
    apply greedy_dots_elem in Hin as (Hm0 & _ & _).
    cbn [fst snd] in Hk. apply host_alternative in Hk as (Heq & _).
    apply (f_equal String.length) in Heq. rewrite str_length_app in Heq.
    destruct m0; [done|]. simpl in Heq. lia.
Qed.

End FrontDoorFacts.

(** ** The connection handler: clients, their groups and their sockets *)

Section GatewayFacts.
Import Relay Gateway.

Lemma open_returns_host w c h v :
  wf w → host_of (open c h v w).1 (open c h v w).2 = Some h.
Proof.
  intros [Hconn _]. unfold open.
  destruct (remoteConnections w !! h) as [r|] eqn:Hr.
  - case_decide.
    + simpl. unfold host_of, registerClient.
      destruct (clientGroups w !! h); by apply Hconn.
    + unfold host_of. simpl. by rewrite lookup_app_r, Nat.sub_diag.
  - unfold host_of. simpl. by rewrite lookup_app_r, Nat.sub_diag.
Qed.

(** Where a member of a group can come from. *)
Lemma step_groups w e h g x :
  clientGroups (Relay.step w e) !! h = Some g → x ∈ g →
  (∃ v, e = Connection x h v)
  ∨ (∃ g0, clientGroups w !! h = Some g0 ∧ x ∈ g0).
Proof.
  intros Hg Hx.
  destruct e as [c h' v|c h'|c st|r|r|r|r msg b]; simpl in Hg.
  - assert (Hnew : clientGroups (connect c h' v w).1 !! h = Some g →
                   (∃ v0, Connection c h' v = Connection x h v0)
                   ∨ (∃ g0, clientGroups w !! h = Some g0 ∧ x ∈ g0)).
    { simpl. intros [[<- <-]|[_ Hg0]]%lookup_insert_Some.
      - left. apply list_elem_of_singleton in Hx as ->. by eauto.
      - right. by eauto. }
    unfold open in Hg.
    destruct (remoteConnections w !! h') as [r|]; [|by apply Hnew].
    case_decide; [|by apply Hnew].
    simpl in Hg. unfold registerClient in Hg.
    destruct (clientGroups w !! h') as [g0|] eqn:Hg0; [|right; by eauto].
    simpl in Hg. apply lookup_insert_Some in Hg as [[<- <-]|[_ Hg]].
    + unfold set_add in Hx. case_decide; [right; by eauto|].
      apply elem_of_app in Hx as [Hx|Hx]; [right; by eauto|].
      left. apply list_elem_of_singleton in Hx as ->. by eauto.
    + right. by eauto.
  - right. set (w0 := set_clientState _ w) in Hg.
    destruct (registered_close x c h' w0) as (h0 & g0 & Hg0 & Hx0);
      [by exists h, g|].
    destruct (clientGroups w0 !! h') as [g1|] eqn:Hg1.
    + destruct (decide (set_delete c g1 = [])) as [Hd|Hd].
      * rewrite (close_last _ _ _ g1) in Hg by done.
        assert (delete h' (clientGroups w0) !! h = Some g) as Hdel
          by (by destruct (remoteConnections w0 !! h')).
        apply lookup_delete_Some in Hdel as [_ ?]. by eauto.
      * rewrite (close_others_left _ _ _ g1) in Hg by done. simpl in Hg.
        apply lookup_insert_Some in Hg as [[<- <-]|[_ Hg]]; [|by eauto].
        apply set_delete_elem in Hx as [Hx _]. by eauto.
    + rewrite close_no_group in Hg by done.
      exists g. split; [|done]. by destruct (remoteConnections w0 !! h').
  - right. by eauto.
  - right. by eauto.
  - right. by eauto.
  - right. destruct (host_of w r); by eauto.
  - right. destruct (host_of w r) as [h0|]; [|by eauto].
    rewrite on_message_fan_out in Hg. by eauto.
Qed.

Lemma inv_start : inv start.
Proof.
  split; [apply wf_init|]. split_and!; simpl.
  - intros ???. by rewrite lookup_empty.
  - intros ??. by rewrite lookup_nil.
  - intros ? ?%elem_of_nil. done.
Qed.

Lemma inv_relay_step s e :
  (∀ c h v, e ≠ Connection c h v) →
  inv s → inv (with_world (λ w, Relay.step w e) s).
Proof.
  intros He (Hwf & Hgrp & Hses & Hup). unfold inv. simpl.
  split_and!; [by apply wf_step| | |done].
  - intros h g x Hg Hx.
    destruct (step_groups _ _ _ _ _ Hg Hx) as [[v ->]|(g0 & ? & ?)];
      [by destruct (He x h v)|by eauto].
  - intros c se Hc. by apply step_host_of, (Hses c).
Qed.

Lemma inv_connection s h v : inv s → inv (on_connection h v s).
Proof.
  intros (Hwf & Hgrp & Hses & Hup). unfold inv, on_connection. simpl.
  split_and!.
  - by apply wf_open.
  - intros h' g x Hg Hx.
    destruct (step_groups (world s) (Connection (length (sessions s)) h v)
                h' g x Hg Hx) as [[v' [= <- <- _]]|(g0 & Hg0 & Hx0)].
    + eexists. split; [by rewrite lookup_app_r, Nat.sub_diag|done].
    + destruct (Hgrp _ _ _ Hg0 Hx0) as (se & Hse & ?).
      exists se. split; [by apply lookup_app_l_Some|done].
  - intros c se [Hc|[Hc Hse]]%lookup_app_Some.
    + apply (step_host_of _ (Connection (length (sessions s)) h v)).
      by apply (Hses c).
    + destruct (c - length (sessions s)) as [|n] eqn:Hn; [|done].
      injection Hse as <-. simpl. by apply open_returns_host.
  - intros x Hx. destruct (Hup x Hx) as (se & Hse & ?).
    exists se. split; [by apply lookup_app_l_Some|done].
Qed.

Lemma inv_step s e : inv s → inv (Gateway.step s e).
Proof.
  intros Hinv. destruct e as [p|c msg|c|r|r|r|r msg b]; simpl.
  - destruct (FrontDoor.on_upgrade p); [done|by apply inv_connection].
  - unfold on_client_message.
    destruct (sessions s !! c) as [se|] eqn:Hse; [|done].
    case_decide; [|done].
    destruct Hinv as (Hwf & Hgrp & Hses & Hup). unfold inv. simpl.
    split_and!; try done.
    intros x [Hx|Hx]%elem_of_app; [by apply Hup|].
    apply list_elem_of_singleton in Hx as ->. by exists se.
  - unfold on_client_close.
    destruct (sessions s !! c) as [se|]; [|done].
    by apply (inv_relay_step s (ClientClosed c (se_host se))).
  - by apply (inv_relay_step s (RemoteOpened r)).
  - by apply (inv_relay_step s (RemoteClosing r)).
  - by apply (inv_relay_step s (RemoteClosed r)).
  - by apply (inv_relay_step s (RemoteMessage r msg b)).
Qed.

Lemma inv_run es : inv (Gateway.run es).
Proof.
  unfold Gateway.run. generalize inv_start. generalize start.
  induction es as [|e es IH]; intros s Hs; [done|].
  simpl. by apply IH, inv_step.
Qed.

(** X16.  In every state the server reaches, a client is a member of at
    most one group, and that group is the one of the host the client
    connected to. *)
Theorem client_is_in_one_group
  (es : list Event) (c : nat) (h1 h2 : string) (g1 g2 : list nat) :
  let s := Gateway.run es in
  clientGroups (world s) !! h1 = Some g1 → c ∈ g1 →
  clientGroups (world s) !! h2 = Some g2 → c ∈ g2 →
  h1 = h2 ∧ se_host <$> sessions s !! c = Some h1.
Proof.
  intros s Hg1 Hc1 Hg2 Hc2.
  destruct (inv_run es) as (_ & Hgrp & _). fold s in Hgrp.
  destruct (Hgrp _ _ _ Hg1 Hc1) as (se1 & Hse1 & <-).
  destruct (Hgrp _ _ _ Hg2 Hc2) as (se2 & Hse2 & <-).
  rewrite Hse1 in Hse2. injection Hse2 as <-. by rewrite Hse1.
Qed.

(** X17.  A message of a client is forwarded to no socket but the one
    [open] returned when the client connected, and that socket was
    constructed for the host the client asked for: in every state the
    server reaches, each message sent upstream went to a socket of its
    client's host. *)
Theorem messages_go_to_the_clients_host (es : list Event) (x : Sent) :
  let s := Gateway.run es in
  x ∈ upstream s →
  ∃ se u,
    sessions s !! s_client x = Some se
    ∧ s_remote x = se_remoteWs se
    ∧ remotes (world s) !! s_remote x = Some u
    ∧ up_host u = se_host se.
Proof.
  intros s Hx.
  destruct (inv_run es) as (_ & _ & Hses & Hup). fold s in Hses, Hup.
  destruct (Hup x Hx) as (se & Hse & Hr).
  pose proof (Hses _ _ Hse) as Hh. rewrite Hr in Hh. unfold host_of in Hh.
  destruct (remotes (world s) !! s_remote x) as [u|]; [|done].
  simpl in Hh. exists se, u. split_and!; [done|done|done|congruence].
Qed.

(** X18.  A client's message right after its connection is dropped: the
    socket [open] returns is never [OPEN] (an existing socket is
    returned only when it is not open, and a new one is [CONNECTING]),
    and messages are not queued, so nothing is sent upstream for the
    client before an [open] event of its socket. *)
Theorem first_message_is_dropped
  (s : Server) (host apiVersion msg : string) :
  let client := length (sessions s) in
  let s' := on_connection host apiVersion s in
  readyState (world s') (open client host apiVersion (world s)).2 ≠ OPEN
  ∧ on_client_message client msg s' = s'.
Proof.
  intros client s'. subst client s'.
  pose proof (open_socket_not_open (world s) (length (sessions s)) host
                apiVersion) as Hst.
  split; [done|]. unfold on_client_message, on_connection. simpl.
  rewrite lookup_app_r, Nat.sub_diag by done. simpl.
  by rewrite decide_False.
Qed.

End GatewayFacts.

(** ** Bonjour discovery: which address a service is listed with *)

Section BonjourFacts.
Import Bonjour.
Context (head : string → option nat).

Lemma probe_first (service : Service) (addrs : list string) :
  match probe head service addrs with
  | Some device =>
      ∃ before addr after,
        addrs = before ++ addr :: after
        ∧ head (status_url service addr) = Some 200
        ∧ Forall (λ a, head (status_url service a) ≠ Some 200) before
        ∧ device = {| d_name := name service; d_address := addr;
                      d_port := port service; d_properties := txt service |}
  | None => Forall (λ a, head (status_url service a) ≠ Some 200) addrs
  end.
Proof.
  induction addrs as [|addr addrs IH]; simpl; [done|].
  destruct (head (status_url service addr)) as [status|] eqn:Hh.
  - destruct (status =? 200) eqn:Hs.
    + apply Nat.eqb_eq in Hs as ->. by exists [], addr, addrs.
    + apply Nat.eqb_neq in Hs.
      destruct (probe head service addrs) as [device|].
      * destruct IH as (before & a & after & -> & ? & ? & ->).
        exists (addr :: before), a, after. split_and!; try done.
        constructor; [congruence|done].
      * constructor; [congruence|done].
  - destruct (probe head service addrs) as [device|].
    + destruct IH as (before & a & after & -> & ? & ? & ->).
      exists (addr :: before), a, after. split_and!; try done.
      constructor; [congruence|done].
    + constructor; [congruence|done].
Qed.

(** X19.  When a service comes up it is listed at most once, under the
    first of its addresses whose status request is answered with 200;
    addresses that fail, time out or answer with another status are
    passed over, and a service none of whose addresses answers 200 is
    not listed. *)
Theorem service_listed_under_first_live_address
  (service : Service) (services : list MdnsDevice) :
  (Forall (λ a, head (status_url service a) ≠ Some 200) (addresses service)
   ∧ on_up head service services = services)
  ∨ (∃ before addr after,
       addresses service = before ++ addr :: after
       ∧ head (status_url service addr) = Some 200
       ∧ Forall (λ a, head (status_url service a) ≠ Some 200) before
       ∧ on_up head service services
         = services ++
           [{| d_name := name service; d_address := addr;
               d_port := port service; d_properties := txt service |}]).
Proof.
  unfold on_up. pose proof (probe_first service (addresses service)) as H.
  destruct (probe head service (addresses service)) as [device|].
  - right. destruct H as (before & addr & after & ? & ? & ? & ->).
    by exists before, addr, after.
  - by left.
Qed.

End BonjourFacts.

(** ** The further properties at concrete inputs *)

(** After one connection the entry of the host holds socket 0, which was
    constructed for the host. *)
Lemma reachable_worlds_well_formed_witness :
  let host := "10.0.0.1:80" in
  let w := Relay.run Relay.init [Relay.Connection 1 host "1"] in
  Relay.remoteConnections w !! host = Some 0
  ∧ ∃ u, Relay.remotes w !! 0 = Some u ∧ Relay.up_host u = host.
Proof.
  intros host w.
  assert (Hr : Relay.remoteConnections w !! host = Some 0) by reflexivity.
  split; [exact Hr|].
  exact (proj1 (reachable_worlds_well_formed [Relay.Connection 1 host "1"])
           host 0 Hr).
Defined.

Lemma open_close_round_trip_witness :
  let host := "10.0.0.1:80" in
  Relay.remoteConnections Relay.init !! host = None
  ∧ Relay.clientGroups Relay.init !! host = None
  ∧ ∃ w1 r,
      Runtime.open (λ _, true) 1 host "1" Relay.init = Some (w1, r)
      ∧ let w3 := Relay.step (Runtime.close Runtime.Bun 1 host w1)
                             (Relay.RemoteClosed r) in
        Relay.remoteConnections w3 = ∅
        ∧ Relay.clientGroups w3 = ∅.
Proof.
  intros host.
  assert (Hr : Relay.remoteConnections Relay.init !! host = None)
    by reflexivity.
  assert (Hg : Relay.clientGroups Relay.init !! host = None) by reflexivity.
  split; [exact Hr|]. split; [exact Hg|].
  pose proof (open_close_round_trip Runtime.Bun (λ _, true)
                Relay.init 1 host "1" Hr Hg) as H.
  cbv zeta in H. destruct H as (w1 & r & Hopen & H1 & H2 & _).
  exists w1, r. split; [exact Hopen|]. split; [exact H1|exact H2].
Defined.

(** The socket replaced by the second client's [open] is not closed by
    the manager, even when both clients leave. *)
Lemma replaced_socket_is_never_closed_witness :
  let host := "10.0.0.1:80" in
  let w := Relay.run Relay.init
             [Relay.Connection 1 host "1"; Relay.RemoteOpened 0] in
  let w' := Relay.run (Relay.open 2 host "1" w).1
              [Relay.ClientClosed 2 host; Relay.ClientClosed 1 host] in
  Relay.remoteConnections w !! host = Some 0
  ∧ Relay.readyState w 0 = Relay.OPEN
  ∧ Relay.closeCalls w' 0 = 0.
Proof.
  intros host w w'.
  assert (Hr : Relay.remoteConnections w !! host = Some 0) by reflexivity.
  assert (Hst : Relay.readyState w 0 = Relay.OPEN) by reflexivity.
  split; [exact Hr|]. split; [exact Hst|].
  exact (proj2 (replaced_socket_is_never_closed w 2 host "1" 0
                  [Relay.ClientClosed 2 host; Relay.ClientClosed 1 host]
                  (wf_run _) Hr Hst)).
Defined.

(** The first socket closes while the entry holds the second. *)
Lemma stale_close_event_drops_live_entry_witness :
  let host := "10.0.0.1:80" in
  let w := Relay.run Relay.init
             [Relay.Connection 1 host "1"; Relay.RemoteOpened 0;
              Relay.Connection 2 host "1"] in
  let w' := Relay.step w (Relay.RemoteClosed 0) in
  Relay.host_of w 0 = Some host
  ∧ Relay.remoteConnections w !! host = Some 1
  ∧ Relay.remoteConnections w' !! host = None
  ∧ (Relay.open 3 host "1" w').2 = 2.
Proof.
  intros host w w'.
  assert (Hh : Relay.host_of w 0 = Some host) by reflexivity.
  assert (Hr : Relay.remoteConnections w !! host = Some 1) by reflexivity.
  assert (Hne : 1 ≠ 0) by lia.
  split; [exact Hh|]. split; [exact Hr|].
  pose proof (stale_close_event_drops_live_entry w 0 1 host Hh Hr Hne) as H.
  cbv zeta in H. destruct H as (H1 & _ & _ & _ & H2).
  split; [exact H1|exact (proj1 (H2 3 "1"))].
Defined.

Lemma sockets_come_from_connections_witness :
  let host := "10.0.0.1:80" in
  let w := Relay.run Relay.init [Relay.Connection 1 host "1"] in
  let es := [Relay.RemoteOpened 0; Relay.Connection 2 host "1"] in
  Relay.host_of w 0 = Some host
  ∧ Relay.host_of (Relay.run w es) 0 = Some host.
Proof.
  intros host w es.
  assert (Hh : Relay.host_of w 0 = Some host) by reflexivity.
  split; [exact Hh|].
  exact (proj2 (proj2 (sockets_come_from_connections w es)) 0 host Hh).
Defined.

Lemma accepted_host_is_digits_dots_colon_witness :
  Host.isValidHost "10.0.0.1:80" = true
  ∧ 9 ≤ String.length "10.0.0.1:80" ≤ 21
  ∧ Str.free_of "/" "10.0.0.1:80" = true.
Proof.
  assert (Hv : Host.isValidHost "10.0.0.1:80" = true)
    by (vm_compute; reflexivity).
  split; [exact Hv|].
  destruct (accepted_host_is_digits_dots_colon "10.0.0.1:80" Hv) as [Hl Hc].
  split; [exact Hl|].
  apply Hc; [reflexivity|discriminate|discriminate].
Defined.

Lemma proxy_invalid_host_rejected_witness :
  Host.isValidHost "localhost:80" = false
  ∧ Proxy.handle (λ _, None) Some id Proxy.GET "localhost:80" "1"
                 "configuration" "{}" []
    = ([], Proxy.Ok (Proxy.ErrorObject "Invalid host: localhost:80")).
Proof.
  assert (Hv : Host.isValidHost "localhost:80" = false)
    by (vm_compute; reflexivity).
  split; [exact Hv|].
  exact (proxy_invalid_host_rejected (λ _, None) Some id Proxy.GET
           "localhost:80" "1" "configuration" "{}" [] Hv).
Defined.

Lemma proxy_relays_answer_witness :
  Host.isValidHost "10.0.0.1:80" = true
  ∧ "schema" ∈ Proxy.whitelist Proxy.GET
  ∧ Proxy.handle (λ _, Some "type: object") (λ _, None) id Proxy.GET
                 "10.0.0.1:80" "1" "schema" "{}" []
    = ([Proxy.request_of id Proxy.GET "10.0.0.1:80" "1" "schema" "{}"],
       Proxy.Ok (Proxy.TextBody "type: object")).
Proof.
  assert (Hv : Host.isValidHost "10.0.0.1:80" = true)
    by (vm_compute; reflexivity).
  assert (Hop : "schema" ∈ Proxy.whitelist Proxy.GET)
    by (apply (bool_decide_unpack _); vm_compute; exact I).
  split; [exact Hv|]. split; [exact Hop|].
  exact (proxy_relays_answer (λ _, Some "type: object") (λ _, None) id
           Proxy.GET "10.0.0.1:80" "1" "schema" "{}" [] "type: object"
           Hv Hop eq_refl).
Defined.

Lemma response_keeps_records_witness :
  let key := "deck._homedeck._tcp.local" in
  let d := {| Mdns.an_instance := key;
              Mdns.an_target := "deck.local"; Mdns.an_address := "10.0.0.5";
              Mdns.an_port := 80; Mdns.an_txt := ["api_version=1"] |} in
  let response := Registry.announce d [Mdns.frag_location d] in
  Registry.filed ∅
  ∧ Registry.clean ∅
  ∧ ∃ services',
      Mdns.on_response ∅ response = Some services'
      ∧ Registry.filed services' ∧ Registry.clean services'
      ∧ ∀ k, is_Some ((∅ : gmap string Mdns.MdnsDevice) !! k) →
             is_Some (services' !! k).
Proof.
  intros key d response.
  assert (Hf : Registry.filed ∅)
    by (intros k r0 Hk; rewrite lookup_empty in Hk; discriminate).
  assert (Hc : Registry.clean ∅)
    by (intros k [r0 Hk]; rewrite lookup_empty in Hk; discriminate).
  split; [exact Hf|]. split; [exact Hc|].
  exact (response_keeps_records ∅ response Hf Hc).
Defined.

Lemma announcement_completes_on_repeat_witness :
  let d := {| Mdns.an_instance := "deck._homedeck._tcp.local";
              Mdns.an_target := "deck.local"; Mdns.an_address := "10.0.0.5";
              Mdns.an_port := 80; Mdns.an_txt := ["api_version=1"] |} in
  let adds := [Mdns.frag_address d; Mdns.frag_location d;
               Mdns.frag_attributes d] in
  Mdns.inherited (Mdns.an_instance d) = false
  ∧ adds ≡ₚ [Mdns.frag_location d; Mdns.frag_address d;
             Mdns.frag_attributes d]
  ∧ Mdns.on_response ∅ (Registry.announce d adds)
    = Some {[ Mdns.an_instance d := Registry.without_address d ]}
  ∧ (Mdns.on_response ∅ (Registry.announce d adds)
       ≫= λ once, Mdns.on_response once (Registry.announce d adds))
    = Some {[ Mdns.an_instance d := Mdns.completed d ]}.
Proof.
  intros d adds.
  assert (Hd : Mdns.inherited (Mdns.an_instance d) = false) by reflexivity.
  assert (Hp : adds ≡ₚ [Mdns.frag_location d; Mdns.frag_address d;
                        Mdns.frag_attributes d]) by apply perm_swap.
  split; [exact Hd|]. split; [exact Hp|].
  exact (announcement_completes_on_repeat d adds Hd Hp).
Defined.

Lemma txt_entry_shapes_witness :
  Str.free_of "=" "path" = true
  ∧ Str.free_of "=" "/api" = true
  ∧ Mdns.txt_entry ∅ "path=/api=v2" = {[ "path" := Mdns.TxtString "/api" ]}
  ∧ Mdns.txt_entry {[ "path" := Mdns.TxtTrue ]} "__proto__=/api=v2"
    = {[ "path" := Mdns.TxtTrue ]}.
Proof.
  assert (Hk : Str.free_of "=" "path" = true) by reflexivity.
  assert (Hv : Str.free_of "=" "/api" = true) by reflexivity.
  assert (Hne : "/api" ≠ "") by discriminate.
  assert (Hp : "path" ≠ "__proto__") by discriminate.
  split; [exact Hk|]. split; [exact Hv|].
  split.
  - destruct (txt_entry_shapes ∅ "path" "/api" "v2" Hk Hv Hne Hp)
      as (_ & _ & _ & H & _).
    exact H.
  - destruct (txt_entry_shapes {[ "path" := Mdns.TxtTrue ]}
                "path" "/api" "v2" Hk Hv Hne Hp)
      as (_ & _ & _ & _ & _ & H).
    exact H.
Defined.

Lemma upgrade_match_sound_and_complete_witness :
  FrontDoor.upgrade_match "/proxy/10.0.0.1:80/v1/ws"
  = Some ("10.0.0.1:80", "1")
  ∧ "/proxy/10.0.0.1:80/v1/ws"
    = "/proxy/" +:+ "10.0.0.1:80" +:+ "/v" +:+ "1" +:+ "/ws".
Proof.
  assert (Hm : FrontDoor.upgrade_match "/proxy/10.0.0.1:80/v1/ws"
               = Some ("10.0.0.1:80", "1")) by (vm_compute; reflexivity).
  split; [exact Hm|].
  exact (proj1 (proj1 (upgrade_match_sound_and_complete
                         "/proxy/10.0.0.1:80/v1/ws") _ _ Hm)).
Defined.

(** A host that is no IPv4 address passes the upgrade pattern. *)
Lemma upgrade_round_trip_witness :
  FrontDoor.all_dot "example.org" = true
  ∧ Str.free_of "/" "1" = true
  ∧ FrontDoor.on_upgrade ("/proxy/" +:+ "example.org" +:+ "/v" +:+ "1" +:+ "/ws")
    = FrontDoor.HandleUpgrade "example.org" "1".
Proof.
  assert (Hd : FrontDoor.all_dot "example.org" = true) by reflexivity.
  assert (Hf : Str.free_of "/" "1" = true) by reflexivity.
  split; [exact Hd|]. split; [exact Hf|].
  apply upgrade_round_trip; [discriminate|discriminate|exact Hd|reflexivity|exact Hf].
Defined.

(** [/proxy/a/v1/v2/ws] is read with host [a/v1] and version [2], not
    with host [a] and version [1/v2]. *)
Lemma upgrade_host_is_longest_witness :
  FrontDoor.upgrade_match "/proxy/a/v1/v2/ws" = Some ("a/v1", "2")
  ∧ "/proxy/a/v1/v2/ws" = "/proxy/" +:+ "a" +:+ "/v" +:+ "1/v2" +:+ "/ws"
  ∧ String.length "a" ≤ String.length "a/v1".
Proof.
  assert (Hm : FrontDoor.upgrade_match "/proxy/a/v1/v2/ws"
               = Some ("a/v1", "2")) by (vm_compute; reflexivity).
  assert (Hp : "/proxy/a/v1/v2/ws"
               = "/proxy/" +:+ "a" +:+ "/v" +:+ "1/v2" +:+ "/ws")
    by reflexivity.
  split; [exact Hm|]. split; [exact Hp|].
  apply (upgrade_host_is_longest "/proxy/a/v1/v2/ws" "a/v1" "2" "a" "1/v2"
           Hm Hp); [discriminate|discriminate|reflexivity|reflexivity].
Defined.

Lemma client_is_in_one_group_witness :
  let host := "10.0.0.1:80" in
  let s := Gateway.run [Gateway.UpgradeRequest "/proxy/10.0.0.1:80/v1/ws"] in
  Relay.clientGroups (Gateway.world s) !! host = Some [0]
  ∧ Gateway.se_host <$> Gateway.sessions s !! 0 = Some host.
Proof.
  intros host s.
  assert (Hg : Relay.clientGroups (Gateway.world s) !! host = Some [0])
    by (vm_compute; reflexivity).
  assert (Hc : 0 ∈ [0]) by (left).
  split; [exact Hg|].
  exact (proj2 (client_is_in_one_group
                  [Gateway.UpgradeRequest "/proxy/10.0.0.1:80/v1/ws"]
                  0 host host [0] [0] Hg Hc Hg Hc)).
Defined.

Lemma messages_go_to_the_clients_host_witness :
  let s := Gateway.run [Gateway.UpgradeRequest "/proxy/10.0.0.1:80/v1/ws";
                        Gateway.UpstreamOpened 0;
                        Gateway.ClientMessage 0 "start"] in
  let x := {| Gateway.s_client := 0; Gateway.s_remote := 0;
              Gateway.s_msg := "start" |} in
  x ∈ Gateway.upstream s
  ∧ ∃ se u,
      Gateway.sessions s !! 0 = Some se
      ∧ 0 = Gateway.se_remoteWs se
      ∧ Relay.remotes (Gateway.world s) !! 0 = Some u
      ∧ Relay.up_host u = Gateway.se_host se.
Proof.
  intros s x.
  assert (Hx : x ∈ Gateway.upstream s) by (vm_compute; left).
  split; [exact Hx|].
  exact (messages_go_to_the_clients_host
           [Gateway.UpgradeRequest "/proxy/10.0.0.1:80/v1/ws";
            Gateway.UpstreamOpened 0; Gateway.ClientMessage 0 "start"]
           x Hx).
Defined.

(** ** Fan-out after a client leaves, and across hosts *)

Section FanOutFacts.
Import Relay Gateway.

Lemma close_clientState c h w : clientState (close c h w) = clientState w.
Proof.
  destruct (clientGroups w !! h) as [g|] eqn:Hg.
  - destruct (decide (set_delete c g = [])) as [Hd|Hd].
    + rewrite (close_last _ _ _ g) by done.
      by destruct (remoteConnections w !! h).
    + by rewrite (close_others_left _ _ _ g).
  - rewrite close_no_group by done.
    by destruct (remoteConnections w !! h).
Qed.

Lemma close_group c h w :
  default [] (clientGroups (close c h w) !! h)
  = set_delete c (default [] (clientGroups w !! h)).
Proof.
  destruct (clientGroups w !! h) as [g|] eqn:Hg.
  - destruct (decide (set_delete c g = [])) as [Hd|Hd].
    + rewrite (close_last _ _ _ g) by done. simpl. rewrite Hd.
      destruct (remoteConnections w !! h); simpl; by rewrite lookup_delete_eq.
    + rewrite (close_others_left _ _ _ g) by done. simpl.
      by rewrite lookup_insert_eq.
  - rewrite close_no_group by done.
    destruct (remoteConnections w !! h); simpl; by rewrite Hg.
Qed.

Lemma close_group_other c h h' w :
  h ≠ h' → clientGroups (close c h w) !! h' = clientGroups w !! h'.
Proof.
  intros Hne. destruct (clientGroups w !! h) as [g|] eqn:Hg.
  - destruct (decide (set_delete c g = [])) as [Hd|Hd].
    + rewrite (close_last _ _ _ g) by done.
      destruct (remoteConnections w !! h); simpl;
        by rewrite lookup_delete_ne.
    + rewrite (close_others_left _ _ _ g) by done. simpl.
      by rewrite lookup_insert_ne.
  - rewrite close_no_group by done.
    by destruct (remoteConnections w !! h).
Qed.

Lemma frames_without (P : nat → Prop) `{∀ x, Decision (P x)}
  (msg : string) (b : bool) (c : nat) (g : list nat) :
  (λ x, {| f_client := x; f_msg := msg; f_binary := b |})
    <$> filter P (set_delete c g)
  = filter (λ f, f_client f ≠ c)
      ((λ x, {| f_client := x; f_msg := msg; f_binary := b |})
         <$> filter P g).
Proof.
  unfold set_delete. induction g as [|x g IH]; [done|].
  rewrite !filter_cons.
  destruct (decide (x ≠ c)) as [Hx|Hx]; destruct (decide (P x)) as [Hp|Hp].
  all: rewrite ?filter_cons, ?fmap_cons.
  all: rewrite ?decide_True by done.
  all: rewrite ?decide_False by done.
  all: rewrite ?fmap_cons, ?filter_cons.
  all: cbn [f_client].
  all: rewrite ?decide_True by done.
  all: rewrite ?decide_False by done.
  all: by rewrite IH.
Qed.

(** X20.  After [close(client, host)], a message for the host goes to
    exactly the frames it would have gone to before, less those for the
    client that left (to nobody when that was the last member), and the
    fan-out of every other host is as before. *)
Theorem fan_out_after_close
  (w : World) (client : nat) (host host' msg : string) (isBinary : bool) :
  fan_out (close client host w) host msg isBinary
  = filter (λ f, f_client f ≠ client) (fan_out w host msg isBinary)
  ∧ (host ≠ host' →
     fan_out (close client host w) host' msg isBinary
     = fan_out w host' msg isBinary).
Proof.
  unfold fan_out. rewrite close_clientState, close_group. split.
  - apply frames_without.
  - intros Hne. by rewrite close_group_other.
Qed.

(** X21.  A message arriving on a socket constructed for a host is
    delivered only to clients that connected to that host: in every
    state the server reaches, the frames the message handler adds carry
    the message unchanged and go to clients whose connection named the
    socket's host. *)
Theorem delivery_stays_within_host
  (es : list Event) (r : nat) (host msg : string) (isBinary : bool) :
  let s := Gateway.run es in
  host_of (world s) r = Some host →
  outbox (world (Gateway.step s (UpstreamMessage r msg isBinary)))
  = outbox (world s) ++ fan_out (world s) host msg isBinary
  ∧ Forall (λ f, f_msg f = msg ∧ f_binary f = isBinary
                 ∧ se_host <$> sessions s !! f_client f = Some host)
           (fan_out (world s) host msg isBinary).
Proof.
  intros s Hh. simpl. rewrite Hh, on_message_fan_out. split; [done|].
  destruct (inv_run es) as (_ & Hgrp & _). fold s in Hgrp.
  unfold fan_out. apply Forall_fmap, Forall_forall. intros c Hc. simpl.
  split_and!; [done..|].
  apply list_elem_of_filter in Hc as [_ Hc].
  destruct (clientGroups (world s) !! host) as [g|] eqn:Hg;
    [|by apply elem_of_nil in Hc].
  destruct (Hgrp _ _ _ Hg Hc) as (se & -> & <-). done.
Qed.

(** X22.  The upgrade route does not apply the host validator: for any
    non-empty host and version without line breaks (no slash in the
    version), an upgrade request for [/proxy/<host>/v<version>/ws] on a
    host without a connection entry hands [ws://<host>/v<version>/ws]
    to [new WebSocket], whether or not [isValidHost] accepts the host.
    When the constructor accepts the URL, the socket is stored under
    the host with a group holding the new client; when it throws, the
    handler throws and nothing is stored. *)
Theorem upgrade_connects_to_any_host
  (accepts : string → bool) (s : Server) (host apiVersion : string) :
  host ≠ "" → apiVersion ≠ "" →
  FrontDoor.all_dot host = true → FrontDoor.all_dot apiVersion = true →
  Str.free_of "/" apiVersion = true →
  remoteConnections (world s) !! host = None →
  let url := "ws://" +:+ host +:+ "/v" +:+ apiVersion +:+ "/ws" in
  let result :=
    Runtime.on_upgrade_request accepts
      ("/proxy/" +:+ host +:+ "/v" +:+ apiVersion +:+ "/ws") s in
  if accepts url then
    ∃ s',
      result = Some s'
      ∧ remotes (world s')
        = remotes (world s) ++
          [{| up_url := url; up_host := host; up_state := CONNECTING;
              up_closeCalls := 0 |}]
      ∧ remoteConnections (world s') !! host
        = Some (length (remotes (world s)))
      ∧ clientGroups (world s') !! host = Some [length (sessions s)]
  else result = None.
Proof.
  intros Hh Ha Hdh Hda Hfree Hr url result. subst result.
  unfold Runtime.on_upgrade_request.
  rewrite (front_door_round_trip host apiVersion) by done.
  unfold Runtime.on_connection. rewrite runtime_open_absent by done.
  change (up_url (new_upstream host apiVersion)) with url.
  destruct (accepts url); [|done].
  eexists. split; [reflexivity|]. simpl.
  by rewrite !lookup_insert_eq.
Qed.

End FanOutFacts.

Lemma fan_out_after_close_witness :
  let host := "10.0.0.1:80" in
  let w := Relay.run Relay.init
             [Relay.Connection 1 host "1"; Relay.Connection 2 host "1"] in
  Relay.fan_out w host "log" false
  = [{| Relay.f_client := 1; Relay.f_msg := "log"; Relay.f_binary := false |};
     {| Relay.f_client := 2; Relay.f_msg := "log"; Relay.f_binary := false |}]
  ∧ Relay.fan_out (Relay.close 1 host w) host "log" false
    = filter (λ f, Relay.f_client f ≠ 1) (Relay.fan_out w host "log" false)
  ∧ Relay.fan_out (Relay.close 1 host w) "10.0.0.2:80" "log" false
    = Relay.fan_out w "10.0.0.2:80" "log" false.
Proof.
  intros host w. split; [reflexivity|].
  destruct (fan_out_after_close w 1 host "10.0.0.2:80" "log" false)
    as [H1 H2].
  split; [exact H1|]. apply H2. discriminate.
Defined.

Lemma delivery_stays_within_host_witness :
  let host := "10.0.0.1:80" in
  let es := [Gateway.UpgradeRequest "/proxy/10.0.0.1:80/v1/ws";
             Gateway.UpstreamOpened 0] in
  let s := Gateway.run es in
  Relay.host_of (Gateway.world s) 0 = Some host
  ∧ Relay.outbox
      (Gateway.world (Gateway.step s (Gateway.UpstreamMessage 0 "log" false)))
    = Relay.outbox (Gateway.world s)
      ++ Relay.fan_out (Gateway.world s) host "log" false.
Proof.
  intros host es s.
  assert (Hh : Relay.host_of (Gateway.world s) 0 = Some host)
    by (vm_compute; reflexivity).
  split; [exact Hh|].
  exact (proj1 (delivery_stays_within_host es 0 host "log" false Hh)).
Defined.

Lemma upgrade_connects_to_any_host_witness :
  Host.isValidHost "example.org" = false
  ∧ Relay.remoteConnections (Gateway.world Gateway.start) !! "example.org"
    = None
  ∧ (∃ s',
       Runtime.on_upgrade_request (λ _, true)
         ("/proxy/" +:+ "example.org" +:+ "/v" +:+ "1" +:+ "/ws")
         Gateway.start = Some s'
       ∧ Relay.remoteConnections (Gateway.world s') !! "example.org"
         = Some 0)
  ∧ Runtime.on_upgrade_request (λ _, false)
      ("/proxy/" +:+ "example.org" +:+ "/v" +:+ "1" +:+ "/ws")
      Gateway.start = None.
Proof.
  assert (Hr : Relay.remoteConnections (Gateway.world Gateway.start)
               !! "example.org" = None) by reflexivity.
  assert (H1 : "example.org" ≠ "") by discriminate.
  assert (H2 : "1" ≠ "") by discriminate.
  assert (H3 : FrontDoor.all_dot "example.org" = true) by reflexivity.
  assert (H4 : FrontDoor.all_dot "1" = true) by reflexivity.
  assert (H5 : Str.free_of "/" "1" = true) by reflexivity.
  split; [vm_compute; reflexivity|]. split; [exact Hr|].
  pose proof (upgrade_connects_to_any_host (λ _, true) Gateway.start
                "example.org" "1" H1 H2 H3 H4 H5 Hr) as Hyes.
  pose proof (upgrade_connects_to_any_host (λ _, false) Gateway.start
                "example.org" "1" H1 H2 H3 H4 H5 Hr) as Hno.
  cbv zeta in Hyes, Hno. split; [|exact Hno].
  destruct Hyes as (s' & Hs' & _ & Hentry & _).
  exists s'. split; [exact Hs'|exact Hentry].
Defined.
